(** * COBSCPP: COBS framing with an XOR check byte

    A shallow embedding of [COBSParser] (cobsParser.hpp and its
    implementation file) and the properties of its encoder, decoder and
    checksum.

    Conventions of the embedding:
    - a [uint8_t], [uint32_t] or [size_t] value is a [Z]; every operation
      that can leave the range of its type is followed by the wrap-around
      of that type ([u8], [u32], [usize]); [size_t] is taken to be 64 bits
      wide;
    - a [std::vector<uint8_t>] is a [list Z], and so is the memory behind
      a [const uint8_t*] parameter, whose size is passed next to it as in
      the code; a pointer into a buffer is the index it points at;
    - reading or writing outside a buffer is undefined behaviour in C++;
      here it makes the enclosing function return [None];
    - the private member [m_message] is threaded through [decodeMessage]
      as a record of type [COBSParser]. *)

From Stdlib Require Import ZArith Lia.
From stdpp Require Import base tactics option list.

Local Open Scope Z_scope.

(** [lia] also decides goals with division by a constant. *)
Ltac Zify.zify_post_hook ::= Z.div_mod_to_equations.

(** ** Fixed-width integers *)

Definition wrap (bits : Z) (x : Z) : Z := x mod 2 ^ bits.

Definition u8 : Z -> Z := wrap 8.
Definition u32 : Z -> Z := wrap 32.
Definition usize : Z -> Z := wrap 64.

Definition UINT32_MAX : Z := 2 ^ 32 - 1.

(** The values a [uint8_t] can hold. *)
Definition is_byte (b : Z) : Prop := 0 <= b < 256.

Definition bytes (l : list Z) : Prop := Forall is_byte l.

(** ** Class constants (cobsParser.hpp) *)

Definition ASCII_NULL : Z := 0.
Definition MAX_FRAME_SIZE : Z := 1024.
Definition MAX_BLOCK_SIZE : Z := 255.

(** The object state: the validated-message store. *)
Record COBSParser : Type := mkCOBSParser { m_message : list Z }.

Definition getMessage (this : COBSParser) : list Z := m_message this.

(** ** calculateCRC

    [for (uint32_t i = 0U; i < len; i++) crc ^= data[i];]  The loop makes
    [len] iterations; [n] counts the ones still to run. *)

Fixpoint crc_loop (data : list Z) (n : nat) (i : Z) (crc : Z) : option Z :=
  match n with
  | O => Some crc
  | S n' =>
      b ← data !! Z.to_nat i;
      crc_loop data n' (u32 (i + 1)) (u8 (Z.lxor crc b))
  end.

Definition calculateCRC (data : list Z) (len : Z) : option Z :=
  crc_loop data (Z.to_nat len) 0 0.

(** ** encodeMessage *)

(** [*p = v] for a pointer [p] into [buf]. *)
Definition poke (buf : list Z) (p : nat) (v : Z) : option (list Z) :=
  if decide (p < length buf)%nat then Some (<[p:=v]> buf) else None.

(** The local variables of the encoding loop. *)
Record enc_state : Type := EncState {
  enc_output : list Z;      (* output, resized to expectedLen *)
  encodedMessage : nat;     (* uint8_t *encodedMessage, as an index *)
  overheadByte : nat;       (* uint8_t *overheadByte, as an index *)
  overheadCount : Z         (* uint8_t overheadCount *)
}.

(** The body of the encoding loop for one message byte. *)
Definition encode_byte (byte : Z) (s : enc_state) : option enc_state :=
  s1 ← (if decide (byte ≠ ASCII_NULL) then
          buf ← poke (enc_output s) (encodedMessage s) byte;
          Some (EncState buf (S (encodedMessage s)) (overheadByte s)
                         (u8 (overheadCount s + 1)))
        else Some s);
  if decide (byte = ASCII_NULL ∨ overheadCount s1 = MAX_BLOCK_SIZE) then
    buf ← poke (enc_output s1) (overheadByte s1) (overheadCount s1);
    Some (EncState buf (S (encodedMessage s1)) (encodedMessage s1) 1)
  else Some s1.

(** [for (uint32_t i = 0; i < messageSize; ++i)], with [n] the number of
    iterations still to run. *)
Fixpoint encode_loop (input : list Z) (inputSize crc : Z)
    (n : nat) (i : Z) (s : enc_state) : option enc_state :=
  match n with
  | O => Some s
  | S n' =>
      byte ← (if decide (i < inputSize) then input !! Z.to_nat i
              else Some crc);
      s' ← encode_byte byte s;
      encode_loop input inputSize crc n' (u32 (i + 1)) s'
  end.

(** What follows the loop: the last overhead byte, the end-of-frame byte,
    the shrinking resize and the returned length. *)
Definition encode_finish (s : enc_state) : option (Z * list Z) :=
  buf ← poke (enc_output s) (overheadByte s) (overheadCount s);
  buf ← poke buf (encodedMessage s) ASCII_NULL;
  let actualLen := S (encodedMessage s) in
  Some (u32 (Z.of_nat actualLen), resize actualLen 0 buf).

Definition expectedLen (messageSize : Z) : Z :=
  let blockOverheadBytes := usize (messageSize / 254) in
  usize (messageSize + blockOverheadBytes + 2).

(** Returns the [uint32_t] result and the new content of [output]; the
    previous content of [output] is cleared and so is not an argument. *)
Definition encodeMessage (input : list Z) (inputSize : Z)
    : option (Z * list Z) :=
  crc ← calculateCRC input inputSize;
  let messageSize := u32 (inputSize + 1) in
  let output := replicate (Z.to_nat (expectedLen messageSize)) 0 in
  s ← encode_loop input inputSize crc (Z.to_nat messageSize) 0
        (EncState output 1 0 1);
  encode_finish s.

(** ** decodeMessage *)

(** The local variables of the decoding loop. *)
Record dec_state : Type := DecState {
  dec_pos : nat;            (* const uint8_t *encodedMessage, as an index *)
  blockSize : Z;            (* uint8_t blockSize *)
  dec_overheadCount : Z;    (* uint8_t overheadCount *)
  dec_output : list Z       (* std::vector<uint8_t> output *)
}.

(** How an iteration of the loop body ends. *)
Inductive flow : Type :=
  | Next (s : dec_state)    (* falls through to [--blockSize] *)
  | Break (s : dec_state).  (* [break] *)

Definition flow_state (f : flow) : dec_state :=
  match f with Next s | Break s => s end.

Definition decode_body (input : list Z) (s : dec_state) : option flow :=
  if decide (blockSize s > 0) then
    b ← input !! dec_pos s;
    Some (Next (DecState (S (dec_pos s)) (blockSize s) (dec_overheadCount s)
                         (dec_output s ++ [b])))
  else
    b ← input !! dec_pos s;
    if decide (b = ASCII_NULL) then
      Some (Break (DecState (S (dec_pos s)) b (dec_overheadCount s)
                            (dec_output s)))
    else
      let output :=
        if decide (dec_overheadCount s ≠ MAX_BLOCK_SIZE)
        then dec_output s ++ [ASCII_NULL] else dec_output s in
      Some (Next (DecState (S (dec_pos s)) b b output)).

(** The step expression [--blockSize]. *)
Definition decode_dec (s : dec_state) : dec_state :=
  DecState (dec_pos s) (u8 (blockSize s - 1)) (dec_overheadCount s)
           (dec_output s).

(** [for (...; encodedMessage < encodedMessageEnd; --blockSize)].  The
    loop has no syntactic bound, so it is run with fuel; running out of
    fuel gives [None]. *)
Fixpoint decode_loop (input : list Z) (fuel : nat) (s : dec_state)
    : option dec_state :=
  if decide (dec_pos s < length input)%nat then
    match fuel with
    | O => None
    | S fuel' =>
        r ← decode_body input s;
        match r with
        | Break s' => Some s'
        | Next s' => decode_loop input fuel' (decode_dec s')
        end
    end
  else Some s.

Definition decode_init : dec_state := DecState 0 0 MAX_BLOCK_SIZE [].

(** What follows the loop, on the decoded [output]. *)
Definition decode_validate (this : COBSParser) (output : list Z)
    : option (bool * COBSParser) :=
  if decide (output = []) then Some (false, this)
  else
    receivedCRC ← last output;
    let output := removelast output in
    calculatedCRC ← calculateCRC output (u32 (Z.of_nat (length output)));
    if decide (calculatedCRC = receivedCRC)
    then Some (true, mkCOBSParser output)
    else Some (false, this).

Definition decodeMessage_fuel (fuel : nat) (this : COBSParser)
    (input : list Z) : option (bool * COBSParser) :=
  s ← decode_loop input fuel decode_init;
  decode_validate this (dec_output s).

Definition decodeMessage (this : COBSParser) (input : list Z)
    : option (bool * COBSParser) :=
  decodeMessage_fuel (length input) this input.


(** * Definitions used to state and prove the properties *)

(** ** The checksum as a fold *)

(** The bitwise XOR of all bytes, from an accumulator of 0: the checksum
    in the words of the specification. *)
Definition xor_fold (data : list Z) : Z := foldl Z.lxor 0 data.

(** The same fold with the [uint8_t] truncation of [crc ^= data[i]]. *)
Definition crc_of (data : list Z) : Z :=
  foldl (fun crc b => u8 (Z.lxor crc b)) 0 data.

Definition nonzero (b : Z) : Prop := b <> ASCII_NULL.

(** ** The encoder on lists *)

(** [stuff msg cur] is the rest of the frame that the encoding loop and
    its epilogue produce for the message bytes [msg] still to scan, when
    the open block already holds the literal bytes [cur]. *)
Fixpoint stuff (msg cur : list Z) : list Z :=
  match msg with
  | [] => (1 + Z.of_nat (length cur)) :: cur ++ [ASCII_NULL]
  | b :: msg' =>
      if decide (b = ASCII_NULL) then
        (1 + Z.of_nat (length cur)) :: cur ++ stuff msg' []
      else if decide (length (cur ++ [b]) = 254%nat) then
        MAX_BLOCK_SIZE :: (cur ++ [b]) ++ stuff msg' []
      else stuff msg' (cur ++ [b])
  end.

(** The logical message [encodeMessage] scans: the payload and its check
    byte, cut to the [uint32_t] value of [messageSize]. *)
Definition message (input : list Z) : list Z :=
  take (Z.to_nat (u32 (Z.of_nat (length input) + 1)))
       (input ++ [crc_of input]).

(** The state of the encoding loop against the list view: [done] are the
    closed blocks, [x] is the placeholder of the open block's overhead
    byte, [cur] its literal bytes and [tail] the unused rest of the
    buffer. *)
Definition enc_rel (s : enc_state) (done cur tail : list Z) (x : Z) : Prop :=
  enc_output s = done ++ x :: cur ++ tail /\
  overheadByte s = length done /\
  encodedMessage s = S (length done + length cur) /\
  overheadCount s = 1 + Z.of_nat (length cur) /\
  (length cur < 254)%nat.

(** The number of blocks that the encoder closes because they hold 254
    literal bytes, for the message bytes [msg] still to scan and an open
    block of [c] literal bytes. *)
Fixpoint full_blocks (msg : list Z) (c : nat) : nat :=
  match msg with
  | [] => 0
  | b :: msg' =>
      if decide (b = ASCII_NULL) then full_blocks msg' 0
      else if decide (S c = 254%nat) then S (full_blocks msg' 0)
      else full_blocks msg' (S c)
  end.

(** The length formula in the words of the specification, for a payload
    of [len] bytes. *)
Definition length_formula (len : Z) : Z := len + 1 + (len + 1) / 254 + 1.

(** ** The decoder on lists *)

(** [unstuff frame bs oc out] is the [output] with which the decoding loop
    ends when it still has [frame] to read and its variables [blockSize],
    [overheadCount] and [output] hold [bs], [oc] and [out]. *)
Fixpoint unstuff (frame : list Z) (bs oc : Z) (out : list Z) : list Z :=
  match frame with
  | [] => out
  | b :: rest =>
      if decide (bs > 0) then unstuff rest (u8 (bs - 1)) oc (out ++ [b])
      else if decide (b = ASCII_NULL) then out
      else unstuff rest (u8 (b - 1)) b
             (if decide (oc ≠ MAX_BLOCK_SIZE) then out ++ [ASCII_NULL]
              else out)
  end.

(** How the decoding loop can have ended in state [s]: with the input
    exhausted, or by [break], just after it read the sentinel into
    [blockSize]. *)
Definition stopped (input : list Z) (s : dec_state) : Prop :=
  (length input <= dec_pos s)%nat \/
  (blockSize s = ASCII_NULL /\
   (0 < dec_pos s)%nat /\
   input !! pred (dec_pos s) = Some ASCII_NULL).

(** [iterates input s s']: from the head of the scan loop in state [s],
    a number of iterations, none of which ends in [break], lead to the
    head of the loop in state [s']. *)
Inductive iterates (input : list Z) : dec_state -> dec_state -> Prop :=
  | iterates_refl (s : dec_state) : iterates input s s
  | iterates_step (s s1 s' : dec_state) :
      (dec_pos s < length input)%nat ->
      decode_body input s = Some (Next s1) ->
      iterates input (decode_dec s1) s' ->
      iterates input s s'.

(** The byte sequence recovered from a frame. *)
Definition recovered (frame : list Z) : list Z :=
  unstuff frame 0 MAX_BLOCK_SIZE [].

(** The sentinel that the decoder puts back before a block when the
    block before it had overhead byte [oc]. *)
Definition reinserted (oc : Z) : list Z :=
  if decide (oc ≠ MAX_BLOCK_SIZE) then [ASCII_NULL] else [].

(** ** The blocks of a frame *)

(** The blocks of a frame as the decoder delimits them: an overhead byte
    [n] other than the sentinel, followed by the [n - 1] bytes that it
    announces, or by what is left of the frame if that is less. *)
Fixpoint frame_blocks (fuel : nat) (frame : list Z) : list (list Z) :=
  match fuel, frame with
  | S fuel', n :: rest =>
      if decide (n = ASCII_NULL) then []
      else (n :: take (Z.to_nat (n - 1)) rest)
           :: frame_blocks fuel' (drop (Z.to_nat (n - 1)) rest)
  | _, _ => []
  end.

Definition blocks (frame : list Z) : list (list Z) :=
  frame_blocks (length frame) frame.

(** What the decoder makes of a list of blocks: the literal bytes of
    each, with a sentinel before a block that follows a block whose
    overhead byte is not [MAX_BLOCK_SIZE]. *)
Fixpoint assemble (bl : list (list Z)) (oc : Z) (out : list Z) : list Z :=
  match bl with
  | (n :: lits) :: bl' => assemble bl' n (out ++ reinserted oc ++ lits)
  | _ => out
  end.

(** ** Definitions for the further properties *)

(** The constructor [COBSParser(){}]: the store starts empty. *)
Definition COBSParser_new : COBSParser := mkCOBSParser [].

(** A sequence of calls of [decodeMessage] on one object, one call for
    each of [inputs], in that order; the booleans are dropped. *)
Fixpoint decode_all (this : COBSParser) (inputs : list (list Z))
    : option COBSParser :=
  match inputs with
  | [] => Some this
  | input :: rest =>
      r ← decodeMessage this input;
      decode_all (snd r) rest
  end.

(** An input on which [decodeMessage] returns [false], whatever the
    store holds. *)
Definition rejected (input : list Z) : Prop :=
  forall this, decodeMessage this input = Some (false, this).

(** The blocks that the encoding loop and its epilogue close, in the
    order in which they lie in the frame: [stuff] without the
    concatenation and the end-of-frame byte. *)
Fixpoint stuff_blocks (msg cur : list Z) : list (list Z) :=
  match msg with
  | [] => [(1 + Z.of_nat (length cur)) :: cur]
  | b :: msg' =>
      if decide (b = ASCII_NULL) then
        ((1 + Z.of_nat (length cur)) :: cur) :: stuff_blocks msg' []
      else if decide (length (cur ++ [b]) = 254%nat) then
        (MAX_BLOCK_SIZE :: cur ++ [b]) :: stuff_blocks msg' []
      else stuff_blocks msg' (cur ++ [b])
  end.

(** A block as the encoder writes it: an overhead byte that is one more
    than the number of literal bytes after it, at most 254 of them, none
    of them the sentinel. *)
Definition block_ok (blk : list Z) : Prop :=
  exists lits,
    blk = (1 + Z.of_nat (length lits)) :: lits /\
    (length lits <= 254)%nat /\
    Forall nonzero lits.

(** * Lemmas *)

(** Equations between lists that differ in the bracketing of [++]. *)
Ltac list_eq :=
  repeat first [rewrite <- app_assoc | progress simpl]; reflexivity.

(** ** Sanity checks on concrete inputs *)

Example encode_abc :
  encodeMessage [0x11; 0x00; 0x22] 3 = Some (6, [2; 0x11; 3; 0x22; 0x33; 0]).
Proof. vm_compute. reflexivity. Qed.

Example decode_abc :
  decodeMessage (mkCOBSParser [9]) [2; 0x11; 3; 0x22; 0x33; 0]
  = Some (true, mkCOBSParser [0x11; 0x00; 0x22]).
Proof. vm_compute. reflexivity. Qed.

Example decode_bad_crc :
  decodeMessage (mkCOBSParser [9]) [2; 0x11; 3; 0x22; 0x34; 0]
  = Some (false, mkCOBSParser [9]).
Proof. vm_compute. reflexivity. Qed.

Example decode_no_sentinel :
  decodeMessage (mkCOBSParser [9]) [5; 0x11; 0x11]
  = Some (true, mkCOBSParser [0x11]).
Proof. vm_compute. reflexivity. Qed.

Example blocks_abc :
  blocks [2; 0x11; 3; 0x22; 0x33; 0] = [[2; 0x11]; [3; 0x22; 0x33]].
Proof. vm_compute. reflexivity. Qed.

(** ** Fixed-width integers *)

Lemma u8_small x : is_byte x -> u8 x = x.
Proof. unfold is_byte, u8, wrap. intros H. apply Z.mod_small. lia. Qed.

Lemma u32_small x : 0 <= x <= UINT32_MAX -> u32 x = x.
Proof. unfold UINT32_MAX, u32, wrap. intros H. apply Z.mod_small. lia. Qed.

Lemma usize_small x : 0 <= x < 2 ^ 64 -> usize x = x.
Proof. unfold usize, wrap. intros H. apply Z.mod_small. lia. Qed.

Lemma u8_is_byte x : is_byte (u8 x).
Proof. unfold is_byte, u8, wrap. apply Z.mod_pos_bound. lia. Qed.

Lemma u32_range x : 0 <= u32 x <= UINT32_MAX.
Proof.
  unfold u32, wrap, UINT32_MAX.
  pose proof (Z.mod_pos_bound x (2 ^ 32)). lia.
Qed.

Lemma messageSize_le n :
  0 <= n <= UINT32_MAX -> u32 (n + 1) <= n + 1.
Proof.
  intros Hn. destruct (Z.eq_dec n UINT32_MAX) as [->|Hne].
  - vm_compute. discriminate.
  - rewrite u32_small by lia. lia.
Qed.

Lemma expectedLen_eq m :
  0 <= m <= UINT32_MAX -> expectedLen m = m + m / 254 + 2.
Proof.
  unfold UINT32_MAX. change (2 ^ 32) with 4294967296.
  intros Hm. unfold expectedLen.
  assert (Hd : usize (m / 254) = m / 254)
    by (apply usize_small; change (2 ^ 64) with 18446744073709551616; lia).
  rewrite Hd. apply usize_small.
  change (2 ^ 64) with 18446744073709551616. lia.
Qed.

(** ** The checksum *)

Lemma lxor_is_byte a b : is_byte a -> is_byte b -> is_byte (Z.lxor a b).
Proof.
  unfold is_byte. intros [Ha Ha'] [Hb Hb'].
  assert (Hnn : 0 <= Z.lxor a b) by (apply Z.lxor_nonneg; tauto).
  split; [exact Hnn|].
  destruct (Z.eq_dec (Z.lxor a b) 0) as [->|Hne]; [lia|].
  change 256 with (2 ^ 8). apply Z.log2_lt_pow2; [lia|].
  pose proof (Z.log2_lxor a b Ha Hb) as Hl.
  assert (Z.log2 a < 8).
  { destruct (Z.eq_dec a 0) as [->|]; [simpl; lia|].
    apply Z.log2_lt_pow2; lia. }
  assert (Z.log2 b < 8).
  { destruct (Z.eq_dec b 0) as [->|]; [simpl; lia|].
    apply Z.log2_lt_pow2; lia. }
  lia.
Qed.

Lemma foldl_crc_bytes data acc :
  is_byte acc -> bytes data ->
  foldl (fun crc b => u8 (Z.lxor crc b)) acc data = foldl Z.lxor acc data.
Proof.
  intros Hacc Hd. revert acc Hacc.
  induction Hd as [|b l Hb _ IH]; intros acc Hacc; simpl; [reflexivity|].
  rewrite u8_small by (apply lxor_is_byte; assumption).
  apply IH. apply lxor_is_byte; assumption.
Qed.

Lemma crc_of_bytes data : bytes data -> crc_of data = xor_fold data.
Proof. intros H. apply foldl_crc_bytes; [unfold is_byte; lia|exact H]. Qed.

Lemma crc_of_is_byte data : is_byte (crc_of data).
Proof.
  unfold crc_of. induction data as [|b l IH] using rev_ind.
  - unfold is_byte; simpl; lia.
  - rewrite foldl_app. simpl. apply u8_is_byte.
Qed.

Lemma crc_loop_fold data n i crc :
  0 <= i -> i + Z.of_nat n <= UINT32_MAX ->
  (Z.to_nat i + n <= length data)%nat ->
  crc_loop data n i crc
  = Some (foldl (fun c b => u8 (Z.lxor c b)) crc
                (take n (drop (Z.to_nat i) data))).
Proof.
  revert i crc. induction n as [|n IH]; intros i crc Hi Hmax Hlen.
  - reflexivity.
  - simpl crc_loop.
    destruct (lookup_lt_is_Some_2 data (Z.to_nat i)) as [b Hb]; [lia|].
    rewrite Hb. simpl.
    rewrite (drop_S _ _ _ Hb). simpl.
    rewrite u32_small by lia.
    rewrite IH by lia.
    replace (Z.to_nat (i + 1)) with (S (Z.to_nat i)) by lia.
    reflexivity.
Qed.

Lemma calculateCRC_take data len :
  0 <= len <= UINT32_MAX -> len <= Z.of_nat (length data) ->
  calculateCRC data len = Some (crc_of (take (Z.to_nat len) data)).
Proof.
  intros Hl Hd. unfold calculateCRC.
  rewrite crc_loop_fold by lia. reflexivity.
Qed.

Lemma calculateCRC_all data :
  Z.of_nat (length data) <= UINT32_MAX ->
  calculateCRC data (Z.of_nat (length data)) = Some (crc_of data).
Proof.
  intros H. rewrite calculateCRC_take by lia.
  rewrite Nat2Z.id, firstn_all. reflexivity.
Qed.

(** ** The encoder *)

Lemma poke_middle done x rest p v :
  p = length done -> poke (done ++ x :: rest) p v = Some (done ++ v :: rest).
Proof.
  intros ->. unfold poke. rewrite decide_True.
  - rewrite insert_app_r_alt by lia. rewrite Nat.sub_diag. reflexivity.
  - rewrite length_app. simpl. lia.
Qed.

Lemma poke_length (buf buf' : list Z) (p : nat) (v : Z) :
  poke buf p v = Some buf' -> length buf' = length buf /\ (p < length buf)%nat.
Proof.
  unfold poke. destruct (decide (p < length buf)%nat); [|discriminate].
  intros [= <-]. rewrite length_insert. tauto.
Qed.

Lemma message_full (p : list Z) :
  Z.of_nat (length p) < UINT32_MAX -> message p = p ++ [crc_of p].
Proof.
  intros Hlen. unfold message.
  rewrite u32_small by lia.
  apply take_ge. rewrite length_app. simpl. lia.
Qed.

Lemma message_length (p : list Z) :
  Z.of_nat (length p) <= UINT32_MAX ->
  Z.of_nat (length (message p)) = u32 (Z.of_nat (length p) + 1).
Proof.
  intros Hlen. unfold message.
  pose proof (u32_range (Z.of_nat (length p) + 1)).
  pose proof (messageSize_le (Z.of_nat (length p)) ltac:(lia)).
  rewrite length_take, length_app. simpl. lia.
Qed.

Lemma encode_finish_rel s done cur tail x :
  enc_rel s done cur tail x -> tail <> [] ->
  encode_finish s
  = Some (u32 (Z.of_nat (length (done ++ stuff [] cur))),
          done ++ stuff [] cur).
Proof.
  intros (Hout & Hov & Henc & Hcnt & Hcur) Htail.
  destruct tail as [|t tail']; [congruence|].
  unfold encode_finish. rewrite Hout.
  rewrite (poke_middle done x _ _ _ Hov). simpl.
  replace (done ++ overheadCount s :: cur ++ t :: tail')
    with ((done ++ overheadCount s :: cur) ++ t :: tail')
    by list_eq.
  rewrite poke_middle by (rewrite length_app; simpl; lia). simpl.
  replace ((done ++ overheadCount s :: cur) ++ ASCII_NULL :: tail')
    with ((done ++ stuff [] cur) ++ tail')
    by (rewrite Hcnt; list_eq).
  assert (Hlen : S (encodedMessage s) = length (done ++ stuff [] cur)).
  { rewrite Henc, length_app. simpl. rewrite length_app. simpl. lia. }
  rewrite Hlen, resize_app by reflexivity. reflexivity.
Qed.

Section EncodeLoop.

Variables (input : list Z) (crc : Z).

Lemma message_byte (i : Z) :
  0 <= i <= Z.of_nat (length input) ->
  (if decide (i < Z.of_nat (length input)) then input !! Z.to_nat i
   else Some crc) = (input ++ [crc]) !! Z.to_nat i.
Proof.
  intros Hi. destruct (decide (i < Z.of_nat (length input))) as [Hlt|Hge].
  - rewrite lookup_app_l by lia. reflexivity.
  - rewrite lookup_app_r by lia.
    replace (Z.to_nat i - length input)%nat with 0%nat by lia. reflexivity.
Qed.

Lemma encode_loop_stuff (n : nat) :
  forall i s done cur tail x,
    0 <= i -> i + Z.of_nat n <= UINT32_MAX ->
    (Z.to_nat i + n <= length input + 1)%nat ->
    enc_rel s done cur tail x ->
    Z.of_nat n + (Z.of_nat (length cur) + Z.of_nat n) / 254 + 1
      <= Z.of_nat (length tail) ->
    encode_loop input (Z.of_nat (length input)) crc n i s ≫= encode_finish
    = let frame :=
        done ++ stuff (take n (drop (Z.to_nat i) (input ++ [crc]))) cur in
      Some (u32 (Z.of_nat (length frame)), frame).
Proof.
  induction n as [|n IH]; intros i s done cur tail x Hi Hmax Hin Hrel Hsp.
  - simpl. apply (encode_finish_rel s done cur tail x Hrel).
    destruct tail; [simpl length in Hsp; lia|discriminate].
  - simpl encode_loop. rewrite message_byte by lia.
    destruct (lookup_lt_is_Some_2 (input ++ [crc]) (Z.to_nat i)) as [b Hb].
    { rewrite length_app. simpl. lia. }
    rewrite Hb, (drop_S _ _ _ Hb). simpl.
    rewrite u32_small by lia.
    replace (S (Z.to_nat i)) with (Z.to_nat (i + 1)) by lia.
    destruct Hrel as (Hout & Hov & Henc & Hcnt & Hcur).
    unfold encode_byte.
    destruct (decide (b = ASCII_NULL)) as [Hb0|Hb0].
    + (* a sentinel byte closes the block *)
      rewrite decide_False by tauto. simpl.
      rewrite decide_True by tauto.
      rewrite Hout, (poke_middle done x _ _ _ Hov). simpl.
      destruct tail as [|x' tail']; [simpl length in Hsp; lia|].
      rewrite (IH (i + 1) _ (done ++ overheadCount s :: cur) [] tail' x');
        try lia.
      * rewrite Hcnt. list_eq.
      * repeat split; simpl; try lia.
        -- list_eq.
        -- rewrite Henc, length_app. simpl. lia.
        -- rewrite Henc, length_app. simpl. lia.
      * simpl in Hsp |- *.
        assert (Z.of_nat n / 254
                <= (Z.of_nat (length cur) + Z.of_nat (S n)) / 254)
          by (apply Z.div_le_mono; lia).
        lia.
    + (* a literal byte *)
      rewrite decide_True by assumption.
      destruct tail as [|t tail']; [simpl length in Hsp; lia|].
      rewrite Hout.
      replace (done ++ x :: cur ++ t :: tail')
        with ((done ++ x :: cur) ++ t :: tail')
        by list_eq.
      rewrite poke_middle by (rewrite Henc, length_app; simpl; lia).
      simpl. rewrite Hcnt.
      rewrite u8_small by (unfold is_byte; lia).
      destruct (decide (length (cur ++ [b]) = 254%nat)) as [Hfull|Hfull];
        rewrite length_app in Hfull; simpl in Hfull.
      * (* the block is full *)
        rewrite decide_True by (right; unfold MAX_BLOCK_SIZE; lia). simpl.
        replace ((done ++ x :: cur) ++ b :: tail')
          with (done ++ x :: (cur ++ [b]) ++ tail')
          by list_eq.
        rewrite (poke_middle done x _ _ _ Hov). simpl.
        destruct tail' as [|x' tail'']; [simpl length in Hsp; lia|].
        rewrite (IH (i + 1) _ (done ++ MAX_BLOCK_SIZE :: cur ++ [b]) []
                    tail'' x'); try lia.
        -- list_eq.
        -- repeat split; simpl; try lia.
           ++ replace (1 + Z.of_nat (length cur) + 1) with MAX_BLOCK_SIZE
                by (unfold MAX_BLOCK_SIZE; lia).
              list_eq.
           ++ rewrite Henc, !length_app. simpl. rewrite length_app. simpl.
              lia.
           ++ rewrite Henc, !length_app. simpl. rewrite length_app. simpl.
              lia.
        -- simpl in Hsp |- *.
           replace (Z.of_nat (length cur) + Z.of_nat (S n))
             with (Z.of_nat n + 1 * 254) in Hsp by lia.
           rewrite Z.div_add in Hsp by lia. lia.
      * (* the block stays open *)
        rewrite decide_False
          by (unfold MAX_BLOCK_SIZE, ASCII_NULL in *; lia).
        simpl.
        rewrite (IH (i + 1) _ done (cur ++ [b]) tail' x); try lia.
        -- reflexivity.
        -- repeat split; simpl; try (rewrite ?length_app; simpl; lia).
           list_eq.
        -- simpl in Hsp |- *. rewrite length_app. simpl.
           replace (Z.of_nat (length cur + 1) + Z.of_nat n)
             with (Z.of_nat (length cur) + Z.of_nat (S n)) by lia.
           lia.
Qed.

Lemma encode_byte_length (b : Z) (s s' : enc_state) :
  encode_byte b s = Some s' ->
  length (enc_output s') = length (enc_output s).
Proof.
  unfold encode_byte. intros H.
  destruct (decide (b ≠ ASCII_NULL)); simpl in H.
  - destruct (poke (enc_output s) (encodedMessage s) b) as [buf|] eqn:Hp;
      [|discriminate].
    apply poke_length in Hp as [Hl _]. simpl in H.
    destruct (decide _); simpl in H.
    + destruct (poke buf _ _) as [buf'|] eqn:Hp'; [|discriminate].
      apply poke_length in Hp' as [Hl' _]. simpl in H.
      injection H as <-. simpl. lia.
    + injection H as <-. simpl. lia.
  - destruct (decide _); simpl in H.
    + destruct (poke _ _ _) as [buf'|] eqn:Hp'; [|discriminate].
      apply poke_length in Hp' as [Hl' _]. simpl in H.
      injection H as <-. simpl. lia.
    + injection H as <-. reflexivity.
Qed.

Lemma encode_loop_length (inputSize : Z) (n : nat) :
  forall i s s',
    encode_loop input inputSize crc n i s = Some s' ->
    length (enc_output s') = length (enc_output s).
Proof.
  induction n as [|n IH]; intros i s s' H; simpl in H.
  - injection H as <-. reflexivity.
  - destruct (if decide (i < inputSize) then _ else _) as [b|];
      [|discriminate].
    simpl in H.
    destruct (encode_byte b s) as [s1|] eqn:Hb; [|discriminate].
    simpl in H. apply IH in H. apply encode_byte_length in Hb. lia.
Qed.
End EncodeLoop.

(** [encodeMessage] never leaves its buffers, and its result is the list
    view of the frame. *)
Lemma encodeMessage_frame (input : list Z) :
  Z.of_nat (length input) <= UINT32_MAX ->
  encodeMessage input (Z.of_nat (length input))
  = Some (u32 (Z.of_nat (length (stuff (message input) []))),
          stuff (message input) []).
Proof.
  intros Hlen. unfold encodeMessage.
  rewrite calculateCRC_all by assumption. simpl.
  set (m := u32 (Z.of_nat (length input) + 1)).
  assert (Hm : 0 <= m <= UINT32_MAX) by apply u32_range.
  assert (Hm' : m <= Z.of_nat (length input) + 1)
    by (apply messageSize_le; lia).
  rewrite expectedLen_eq by assumption.
  replace (Z.to_nat (m + m / 254 + 2))
    with (S (Z.to_nat (m + m / 254 + 1))) by lia.
  rewrite replicate_S.
  rewrite (encode_loop_stuff input (crc_of input) (Z.to_nat m) 0 _
             [] [] (replicate (Z.to_nat (m + m / 254 + 1)) 0) 0).
  - reflexivity.
  - lia.
  - lia.
  - lia.
  - repeat split; simpl; lia.
  - rewrite length_replicate. simpl length. lia.
Qed.

(** *** The sentinel in a frame *)

Lemma stuff_sentinel (msg : list Z) :
  forall cur,
    Forall (fun b => b <> ASCII_NULL) cur ->
    exists body,
      stuff msg cur = body ++ [ASCII_NULL] /\
      Forall (fun b => b <> ASCII_NULL) body.
Proof.
  induction msg as [|b msg IH]; intros cur Hcur; simpl.
  - exists ((1 + Z.of_nat (length cur)) :: cur). split; [reflexivity|].
    constructor; [unfold ASCII_NULL; lia|assumption].
  - destruct (decide (b = ASCII_NULL)) as [Hb|Hb].
    + destruct (IH [] (Forall_nil_2 _)) as (body & -> & Hbody).
      exists ((1 + Z.of_nat (length cur)) :: cur ++ body).
      split; [list_eq|].
      constructor; [unfold ASCII_NULL; lia|].
      apply Forall_app; split; assumption.
    + assert (Hcur' : Forall (fun b => b <> ASCII_NULL) (cur ++ [b])).
      { apply Forall_app; split; [assumption|].
        constructor; [assumption|constructor]. }
      destruct (decide (length (cur ++ [b]) = 254%nat)) as [Hfull|Hfull].
      * destruct (IH [] (Forall_nil_2 _)) as (body & -> & Hbody).
        exists (MAX_BLOCK_SIZE :: (cur ++ [b]) ++ body).
        split; [list_eq|].
        constructor; [discriminate|].
        apply Forall_app; split; assumption.
      * apply IH. assumption.
Qed.

(** *** The length of a frame *)

Lemma stuff_length (msg : list Z) :
  forall cur,
    length (stuff msg cur)
    = (length cur + length msg + 2 + full_blocks msg (length cur))%nat.
Proof.
  induction msg as [|b msg IH]; intros cur; simpl.
  - rewrite length_app. simpl. lia.
  - rewrite length_app. simpl length.
    replace (length cur + 1)%nat with (S (length cur)) by lia.
    destruct (decide (b = ASCII_NULL)) as [Hb|Hb].
    + simpl. rewrite length_app, IH. simpl. lia.
    + destruct (decide (S (length cur) = 254%nat)) as [Hfull|Hfull].
      * simpl. rewrite !length_app, IH. simpl. lia.
      * rewrite IH, length_app. simpl length.
        replace (length cur + 1)%nat with (S (length cur)) by lia. lia.
Qed.

Lemma full_blocks_le (msg : list Z) :
  forall c,
    (c < 254)%nat ->
    Z.of_nat (full_blocks msg c)
    <= (Z.of_nat c + Z.of_nat (length msg)) / 254.
Proof.
  induction msg as [|b msg IH]; intros c Hc; simpl full_blocks.
  - simpl length. lia.
  - simpl length.
    destruct (decide (b = ASCII_NULL)) as [Hb|Hb].
    + specialize (IH 0%nat ltac:(lia)). lia.
    + destruct (decide (S c = 254%nat)) as [Hfull|Hfull].
      * specialize (IH 0%nat ltac:(lia)). lia.
      * specialize (IH (S c) ltac:(lia)). lia.
Qed.

Lemma full_blocks_nonzero (msg : list Z) :
  forall c,
    (c < 254)%nat ->
    Forall (fun b => b <> ASCII_NULL) msg ->
    Z.of_nat (full_blocks msg c)
    = (Z.of_nat c + Z.of_nat (length msg)) / 254.
Proof.
  induction msg as [|b msg IH]; intros c Hc Hnz; simpl full_blocks.
  - simpl length. lia.
  - simpl length. inversion Hnz as [|? ? Hb Hnz']; subst.
    rewrite decide_False by assumption.
    destruct (decide (S c = 254%nat)) as [Hfull|Hfull].
    + specialize (IH 0%nat ltac:(lia) Hnz'). lia.
    + specialize (IH (S c) ltac:(lia) Hnz'). lia.
Qed.

Lemma full_blocks_short (msg : list Z) :
  forall c, (c + length msg < 254)%nat -> full_blocks msg c = 0%nat.
Proof.
  induction msg as [|b msg IH]; intros c Hc; simpl in *; [reflexivity|].
  destruct (decide (b = ASCII_NULL)); [apply IH; lia|].
  rewrite decide_False by lia. apply IH. lia.
Qed.

Lemma frame_length (p : list Z) :
  Z.of_nat (length p) <= UINT32_MAX ->
  Z.of_nat (length (stuff (message p) []))
  = u32 (Z.of_nat (length p) + 1) + 2
    + Z.of_nat (full_blocks (message p) 0).
Proof.
  intros Hlen. rewrite stuff_length. simpl length.
  pose proof (message_length p Hlen). lia.
Qed.

(** ** The decoder *)

Section DecodeLoop.

Variable input : list Z.

Lemma decode_body_Some (s : dec_state) :
  (dec_pos s < length input)%nat ->
  exists b r,
    input !! dec_pos s = Some b /\
    decode_body input s = Some r /\
    dec_pos (flow_state r) = S (dec_pos s) /\
    ((exists s', r = Break s') <->
     ~ blockSize s > 0 /\ b = ASCII_NULL).
Proof.
  intros Hpos.
  destruct (lookup_lt_is_Some_2 input (dec_pos s) Hpos) as [b Hb].
  exists b. unfold decode_body. rewrite Hb. simpl.
  destruct (decide (blockSize s > 0)) as [Hbs|Hbs].
  - eexists. split; [reflexivity|]. split; [reflexivity|].
    split; [reflexivity|]. split.
    + intros [s' Hs']. discriminate.
    + intros [Hn _]. contradiction.
  - destruct (decide (b = ASCII_NULL)) as [Hb0|Hb0].
    + eexists. split; [reflexivity|]. split; [reflexivity|].
      split; [reflexivity|]. split.
      * intros _. split; assumption.
      * intros _. eexists. reflexivity.
    + eexists. split; [reflexivity|]. split; [reflexivity|].
      split; [reflexivity|]. split.
      * intros [s' Hs']. discriminate.
      * intros [_ Hn]. contradiction.
Qed.

(** With fuel for every byte still unread the loop ends, inside the
    input, with the [output] of the list view. *)
Lemma decode_loop_unstuff (fuel : nat) :
  forall s,
    (length input - dec_pos s <= fuel)%nat ->
    exists s',
      decode_loop input fuel s = Some s' /\
      (dec_pos s <= dec_pos s')%nat /\
      (dec_pos s <= length input -> dec_pos s' <= length input)%nat /\
      dec_output s'
      = unstuff (drop (dec_pos s) input) (blockSize s)
                (dec_overheadCount s) (dec_output s).
Proof.
  induction fuel as [|fuel IH]; intros s Hfuel.
  - exists s. simpl. rewrite decide_False by lia.
    rewrite drop_ge by lia. repeat split; lia.
  - simpl decode_loop.
    destruct (decide (dec_pos s < length input)%nat) as [Hpos|Hpos].
    + destruct (lookup_lt_is_Some_2 input (dec_pos s) Hpos) as [b Hb].
      rewrite (drop_S _ _ _ Hb). unfold decode_body. rewrite Hb. simpl.
      destruct (decide (blockSize s > 0)) as [Hbs|Hbs]; simpl.
      * destruct (IH (decode_dec
                        (DecState (S (dec_pos s)) (blockSize s)
                                  (dec_overheadCount s)
                                  (dec_output s ++ [b]))))
          as (s' & Hrun & Hle & Hin & Hout); [simpl; lia|].
        exists s'. simpl in *. repeat split; try assumption; lia.
      * destruct (decide (b = ASCII_NULL)) as [Hb0|Hb0]; simpl.
        -- eexists. repeat split; simpl; lia.
        -- match goal with
           | |- context [decode_loop input fuel ?st] =>
               destruct (IH st) as (s' & Hrun & Hle & Hin & Hout);
                 [simpl; lia|]
           end.
           exists s'. simpl in *. repeat split; try assumption; lia.
    + exists s. rewrite drop_ge by lia. repeat split; lia.
Qed.

Lemma decode_loop_stops (fuel : nat) :
  forall s s', decode_loop input fuel s = Some s' -> stopped input s'.
Proof.
  induction fuel as [|fuel IH]; intros s s' Hrun; simpl in Hrun;
    destruct (decide (dec_pos s < length input)%nat) as [Hpos|Hpos];
    try discriminate;
    try (injection Hrun as <-; left; lia).
  unfold decode_body in Hrun.
  destruct (input !! dec_pos s) as [b|] eqn:Hb;
    [|destruct (decide (blockSize s > 0)); discriminate].
  destruct (decide (blockSize s > 0)); simpl in Hrun.
  - exact (IH _ _ Hrun).
  - destruct (decide (b = ASCII_NULL)) as [Hb0|Hb0]; simpl in Hrun.
    + injection Hrun as <-. right. simpl.
      split; [exact Hb0|]. split; [lia|]. rewrite Hb, Hb0. reflexivity.
    + exact (IH _ _ Hrun).
Qed.

Lemma decode_loop_recovered (fuel : nat) :
  (length input <= fuel)%nat ->
  exists s,
    decode_loop input fuel decode_init = Some s /\
    dec_output s = recovered input.
Proof.
  intros Hfuel.
  destruct (decode_loop_unstuff fuel decode_init)
    as (s & Hrun & _ & _ & Hout); [simpl; lia|].
  exists s. split; [assumption|]. rewrite Hout. reflexivity.
Qed.

Lemma decode_loop_more_fuel (fuel : nat) :
  forall fuel' s s',
    decode_loop input fuel s = Some s' -> (fuel <= fuel')%nat ->
    decode_loop input fuel' s = Some s'.
Proof.
  induction fuel as [|fuel IH]; intros fuel' s s' Hrun Hle.
  - simpl in Hrun.
    destruct (decide (dec_pos s < length input)%nat) as [Hpos|Hpos];
      [discriminate|].
    destruct fuel'; simpl; rewrite decide_False by assumption; assumption.
  - destruct fuel' as [|fuel']; [lia|].
    simpl in *.
    destruct (decide (dec_pos s < length input)%nat); [|assumption].
    destruct (decode_body input s) as [[s1|s1]|]; simpl in *;
      [|assumption|discriminate].
    apply IH; [assumption|lia].
Qed.
End DecodeLoop.

(** The iterations that the loop makes before it ends. *)
Lemma decode_loop_iterates (input : list Z) (fuel : nat) :
  forall s s',
    (dec_pos s <= length input)%nat ->
    decode_loop input fuel s = Some s' ->
    exists last,
      iterates input s last /\
      (dec_pos last = length input /\ s' = last \/
       (dec_pos last < length input)%nat /\
       decode_body input last = Some (Break s')).
Proof.
  induction fuel as [|fuel IH]; intros s s' Hin Hrun; simpl in Hrun;
    destruct (decide (dec_pos s < length input)%nat) as [Hpos|Hpos];
    try discriminate;
    try (injection Hrun as <-; exists s;
         split; [apply iterates_refl|left; split; [lia|reflexivity]]).
  destruct (decode_body_Some input s Hpos) as (b & r & _ & Hbody & Hnext & _).
  rewrite Hbody in Hrun. simpl in Hrun.
  destruct r as [s1|s1].
  - destruct (IH (decode_dec s1) s') as (last & Hit & Hend);
      [simpl in *; lia|exact Hrun|].
    exists last. split; [|exact Hend].
    exact (iterates_step input s s1 last Hpos Hbody Hit).
  - injection Hrun as <-. exists s.
    split; [apply iterates_refl|]. right. split; [exact Hpos|exact Hbody].
Qed.

Lemma unstuff_length (frame : list Z) :
  forall bs oc out,
    (length (unstuff frame bs oc out) <= length out + length frame)%nat.
Proof.
  induction frame as [|b rest IH]; intros bs oc out; simpl; [lia|].
  destruct (decide (bs > 0)).
  - etransitivity; [apply IH|]. rewrite length_app. simpl. lia.
  - destruct (decide (b = ASCII_NULL)); [lia|].
    etransitivity; [apply IH|].
    destruct (decide (oc ≠ MAX_BLOCK_SIZE)); rewrite ?length_app; simpl; lia.
Qed.

Lemma unstuff_bytes (frame : list Z) :
  forall bs oc out,
    bytes frame -> bytes out -> bytes (unstuff frame bs oc out).
Proof.
  unfold bytes.
  induction frame as [|b rest IH]; intros bs oc out Hf Hout; simpl;
    [assumption|].
  inversion Hf as [|? ? Hb Hrest]; subst.
  destruct (decide (bs > 0)).
  - apply IH; [assumption|].
    apply Forall_app; split; [assumption|].
    constructor; [exact Hb|constructor].
  - destruct (decide (b = ASCII_NULL)); [assumption|].
    apply IH; [assumption|].
    destruct (decide (oc ≠ MAX_BLOCK_SIZE)); [|assumption].
    apply Forall_app; split; [assumption|].
    constructor; [unfold is_byte, ASCII_NULL; lia|constructor].
Qed.

Lemma decode_validate_Some (this : COBSParser) (output : list Z) :
  exists ok this', decode_validate this output = Some (ok, this').
Proof.
  unfold decode_validate.
  destruct (decide (output = [])) as [Hnil|Hnil]; [eauto|].
  destruct (proj2 (last_is_Some output) Hnil) as [c Hc].
  rewrite Hc. simpl.
  set (out := removelast output).
  pose proof (u32_range (Z.of_nat (length out))) as Hr.
  assert (Hle : u32 (Z.of_nat (length out)) <= Z.of_nat (length out)).
  { unfold u32, wrap. apply Z.mod_le; lia. }
  rewrite calculateCRC_take by lia. simpl.
  destruct (decide (_ = c)); eauto.
Qed.

Lemma decode_validate_ok (this : COBSParser) (payload : list Z) :
  Z.of_nat (length payload) <= UINT32_MAX ->
  decode_validate this (payload ++ [crc_of payload])
  = Some (true, mkCOBSParser payload).
Proof.
  intros Hlen. unfold decode_validate.
  rewrite decide_False by (intros H; destruct payload; discriminate).
  rewrite last_snoc. simpl. rewrite removelast_last.
  rewrite u32_small by lia.
  rewrite calculateCRC_all by assumption. simpl.
  rewrite decide_True by reflexivity. reflexivity.
Qed.

Lemma decodeMessage_recovered (this : COBSParser) (input : list Z) :
  decodeMessage this input = decode_validate this (recovered input).
Proof.
  unfold decodeMessage, decodeMessage_fuel.
  destruct (decode_loop_recovered input (length input) (Nat.le_refl _))
    as (s & -> & Hout).
  simpl. rewrite Hout. reflexivity.
Qed.

(** *** The blocks of a frame *)

Lemma reinserted_partial oc :
  oc <> MAX_BLOCK_SIZE -> reinserted oc = [ASCII_NULL].
Proof. intros H. unfold reinserted. rewrite decide_True; tauto. Qed.

Lemma reinserted_full : reinserted MAX_BLOCK_SIZE = [].
Proof. reflexivity. Qed.

(** A block in progress: with [k] bytes of the block still to copy, the
    loop copies the next [k] bytes, or what is left of the frame, and is
    then back at an overhead byte. *)
Lemma unstuff_skip (rest : list Z) :
  forall k oc out,
    0 <= k < 256 ->
    unstuff rest k oc out
    = unstuff (drop (Z.to_nat k) rest) 0 oc (out ++ take (Z.to_nat k) rest).
Proof.
  induction rest as [|b rest IH]; intros k oc out Hk.
  - rewrite drop_nil, take_nil, app_nil_r. reflexivity.
  - destruct (decide (k > 0)) as [Hpos|Hzero].
    + cbn [unstuff]. rewrite decide_True by exact Hpos.
      rewrite u8_small by (unfold is_byte; lia).
      rewrite IH by lia.
      replace (Z.to_nat k) with (S (Z.to_nat (k - 1))) by lia.
      cbn [drop take]. f_equal. list_eq.
    + replace k with 0 by lia. simpl drop. simpl take.
      rewrite app_nil_r. reflexivity.
Qed.

Lemma unstuff_literals (lits : list Z) :
  forall rest oc out,
    (length lits <= 255)%nat ->
    unstuff (lits ++ rest) (Z.of_nat (length lits)) oc out
    = unstuff rest 0 oc (out ++ lits).
Proof.
  intros rest oc out Hlen.
  rewrite unstuff_skip by lia.
  rewrite Nat2Z.id, drop_app_length, take_app_length. reflexivity.
Qed.

(** The list view of the decoder reads a frame block by block. *)
Lemma unstuff_frame_blocks (fuel : nat) :
  forall frame oc out,
    (length frame <= fuel)%nat -> bytes frame ->
    unstuff frame 0 oc out = assemble (frame_blocks fuel frame) oc out.
Proof.
  induction fuel as [|fuel IH]; intros frame oc out Hfuel Hbytes.
  - destruct frame; [reflexivity|simpl in Hfuel; lia].
  - destruct frame as [|n rest]; [reflexivity|].
    inversion Hbytes as [|? ? Hn Hrest]; subst.
    cbn [unstuff frame_blocks]. rewrite decide_False by lia.
    destruct (decide (n = ASCII_NULL)) as [Hn0|Hn0]; [reflexivity|].
    cbn [assemble].
    unfold is_byte, ASCII_NULL in *.
    rewrite u8_small by (unfold is_byte; lia).
    rewrite unstuff_skip by lia.
    rewrite IH.
    + f_equal. unfold reinserted.
      destruct (decide (oc ≠ MAX_BLOCK_SIZE)); list_eq.
    + rewrite length_drop. simpl in Hfuel. lia.
    + apply Forall_drop. exact Hrest.
Qed.

Lemma recovered_blocks (frame : list Z) :
  bytes frame ->
  recovered frame = assemble (blocks frame) MAX_BLOCK_SIZE [].
Proof.
  intros Hb. apply unstuff_frame_blocks; [reflexivity|exact Hb].
Qed.

Lemma unstuff_block (n : Z) (lits rest : list Z) (oc : Z) (out : list Z) :
  n = 1 + Z.of_nat (length lits) -> (length lits <= 254)%nat ->
  unstuff (n :: lits ++ rest) 0 oc out
  = unstuff rest 0 n (out ++ reinserted oc ++ lits).
Proof.
  intros Hn Hlen. cbn [unstuff].
  rewrite decide_False by lia.
  rewrite decide_False by (unfold ASCII_NULL; lia).
  replace (n - 1) with (Z.of_nat (length lits)) by lia.
  rewrite u8_small by (unfold is_byte; lia).
  rewrite unstuff_literals by lia.
  f_equal. unfold reinserted.
  destruct (decide (oc ≠ MAX_BLOCK_SIZE)); list_eq.
Qed.

(** ** Decoding what the encoder produced *)

Lemma unstuff_stuff (msg : list Z) :
  forall cur oc out,
    (length cur < 254)%nat ->
    unstuff (stuff msg cur) 0 oc out = out ++ reinserted oc ++ cur ++ msg.
Proof.
  induction msg as [|b msg IH]; intros cur oc out Hcur; simpl stuff.
  - rewrite unstuff_block by lia. simpl.
    rewrite !app_nil_r. reflexivity.
  - destruct (decide (b = ASCII_NULL)) as [Hb|Hb].
    + rewrite unstuff_block by lia.
      rewrite IH by (simpl; lia).
      rewrite (reinserted_partial (1 + Z.of_nat (length cur)))
        by (unfold MAX_BLOCK_SIZE; lia).
      subst b. list_eq.
    + destruct (decide (length (cur ++ [b]) = 254%nat)) as [Hfull|Hfull].
      * rewrite unstuff_block
          by (rewrite ?Hfull; unfold MAX_BLOCK_SIZE; lia).
        rewrite IH by (simpl; lia).
        rewrite reinserted_full. list_eq.
      * rewrite IH by (rewrite length_app in *; simpl in *; lia).
        list_eq.
Qed.

Lemma recovered_stuff (msg : list Z) : recovered (stuff msg []) = msg.
Proof.
  unfold recovered. rewrite unstuff_stuff by (simpl; lia).
  rewrite reinserted_full. reflexivity.
Qed.

Lemma decode_encode (this : COBSParser) (p : list Z) :
  Z.of_nat (length p) < UINT32_MAX ->
  decodeMessage this (stuff (message p) []) = Some (true, mkCOBSParser p).
Proof.
  intros Hlen. rewrite decodeMessage_recovered, recovered_stuff.
  rewrite message_full by assumption.
  apply decode_validate_ok. lia.
Qed.

(** * The claims *)

(** ** C1: round trip *)

(** C1.  For every payload [p] of at most [MAX_FRAME_SIZE - 1] bytes,
    sentinel bytes included, [encodeMessage] returns a frame on which
    [decodeMessage] returns [true], and the validated-message store
    [m_message] is then exactly [p], whatever it held before. *)
Theorem round_trip (this : COBSParser) (p : list Z) :
  Z.of_nat (length p) <= MAX_FRAME_SIZE - 1 ->
  exists n frame this',
    encodeMessage p (Z.of_nat (length p)) = Some (n, frame) /\
    decodeMessage this frame = Some (true, this') /\
    getMessage this' = p.
Proof.
  intros Hlen.
  assert (Hlt : Z.of_nat (length p) < UINT32_MAX)
    by (unfold MAX_FRAME_SIZE, UINT32_MAX in *; lia).
  eexists _, _, _. split; [apply encodeMessage_frame; lia|].
  split; [apply decode_encode; exact Hlt|]. reflexivity.
Qed.

Lemma round_trip_witness :
  Z.of_nat (length [0x41; 0x00; 0x42; 0x00]) <= MAX_FRAME_SIZE - 1 /\
  exists n frame this',
    encodeMessage [0x41; 0x00; 0x42; 0x00] 4 = Some (n, frame) /\
    decodeMessage (mkCOBSParser [7]) frame = Some (true, this') /\
    getMessage this' = [0x41; 0x00; 0x42; 0x00].
Proof.
  split; [vm_compute; discriminate|].
  apply (round_trip (mkCOBSParser [7]) [0x41; 0x00; 0x42; 0x00]).
  vm_compute. discriminate.
Defined.

(** ** C2: the sentinel appears once, at the end *)

(** C2.  For every payload [p] (of a length that [inputSize] can hold),
    the frame written by [encodeMessage] is [body ++ [0x00]] where no
    byte of [body], overhead byte or literal, is [0x00]: the sentinel
    occurs exactly once, as the last byte. *)
Theorem sentinel_only_last (p : list Z) :
  Z.of_nat (length p) <= UINT32_MAX ->
  exists n body,
    encodeMessage p (Z.of_nat (length p)) = Some (n, body ++ [ASCII_NULL]) /\
    Forall nonzero body /\
    length (filter (fun b => b = ASCII_NULL) (body ++ [ASCII_NULL])) = 1%nat.
Proof.
  intros Hlen.
  destruct (stuff_sentinel (message p) [] (Forall_nil_2 _))
    as (body & Hbody & Hnz).
  exists (u32 (Z.of_nat (length (stuff (message p) [])))), body.
  split; [rewrite <- Hbody; apply encodeMessage_frame; exact Hlen|].
  split; [exact Hnz|].
  rewrite filter_app.
  replace (filter (fun b => b = ASCII_NULL) body) with (@nil Z).
  - reflexivity.
  - symmetry. clear Hbody. induction Hnz as [|b l Hb _ IH]; [reflexivity|].
    rewrite filter_cons_False by exact Hb. exact IH.
Qed.

Lemma sentinel_only_last_witness :
  Z.of_nat (length [0x00; 0x05; 0x00]) <= UINT32_MAX /\
  exists n body,
    encodeMessage [0x00; 0x05; 0x00] 3 = Some (n, body ++ [ASCII_NULL]) /\
    Forall nonzero body /\
    length (filter (fun b => b = ASCII_NULL) (body ++ [ASCII_NULL])) = 1%nat.
Proof.
  split; [vm_compute; discriminate|].
  apply (sentinel_only_last [0x00; 0x05; 0x00]).
  vm_compute. discriminate.
Defined.

(** ** C3: when decoding fails, and what happens to the store *)

(** C3.  For an input of bytes (of a length that a [uint32_t] can hold),
    the decoding loop ends with some [output], the byte sequence
    recovered by un-stuffing, and [decodeMessage] returns [false] exactly
    when that sequence is empty or its last byte differs from the XOR of
    the bytes before it.  When it returns [false] the store is the one it
    was called with; when it returns [true] the store holds the recovered
    sequence without its last byte. *)
Theorem decode_result (this : COBSParser) (input : list Z) :
  bytes input ->
  Z.of_nat (length input) <= UINT32_MAX ->
  exists s ok this',
    decode_loop input (length input) decode_init = Some s /\
    decodeMessage this input = Some (ok, this') /\
    (ok = false <->
     dec_output s = [] \/
     last (dec_output s) <> Some (xor_fold (removelast (dec_output s)))) /\
    (ok = false -> this' = this) /\
    (ok = true -> m_message this' = removelast (dec_output s)).
Proof.
  intros Hbytes Hlen.
  destruct (decode_loop_recovered input (length input) (Nat.le_refl _))
    as (s & Hrun & Hout).
  exists s. rewrite decodeMessage_recovered, Hrun, Hout.
  set (out := recovered input).
  assert (Hob : bytes out)
    by (apply unstuff_bytes; [assumption|constructor]).
  assert (Hol : (length out <= length input)%nat)
    by (apply (unstuff_length input 0 MAX_BLOCK_SIZE [])).
  clearbody out. unfold decode_validate.
  destruct (decide (out = [])) as [Hnil|Hnil].
  { exists false, this. repeat split; try tauto; discriminate. }
  destruct (proj2 (last_is_Some out) Hnil) as [c Hc].
  apply last_Some in Hc as [payload ->].
  rewrite last_snoc, removelast_last. simpl.
  assert (Hpl : Z.of_nat (length payload) <= UINT32_MAX)
    by (rewrite length_app in Hol; lia).
  rewrite u32_small by lia.
  rewrite calculateCRC_all by assumption. simpl.
  assert (Hpb : bytes payload)
    by (apply Forall_app in Hob; tauto).
  rewrite (crc_of_bytes payload Hpb).
  destruct (decide (xor_fold payload = c)) as [Heq|Hne].
  - exists true, (mkCOBSParser payload).
    split; [reflexivity|]. split; [reflexivity|].
    split; [|split; [discriminate|reflexivity]].
    split; [discriminate|].
    intros [H|H]; [congruence|]. exfalso. apply H. congruence.
  - exists false, this.
    split; [reflexivity|]. split; [reflexivity|].
    split; [|split; [reflexivity|discriminate]].
    split; [|reflexivity].
    intros _. right. intros [= H]. congruence.
Qed.

Lemma decode_result_witness :
  bytes [2; 0x11; 3; 0x22; 0x34; 0] /\
  Z.of_nat (length [2; 0x11; 3; 0x22; 0x34; 0]) <= UINT32_MAX /\
  exists s ok this',
    decode_loop [2; 0x11; 3; 0x22; 0x34; 0] 6 decode_init = Some s /\
    decodeMessage (mkCOBSParser [9]) [2; 0x11; 3; 0x22; 0x34; 0]
    = Some (ok, this') /\
    (ok = false <->
     dec_output s = [] \/
     last (dec_output s) <> Some (xor_fold (removelast (dec_output s)))) /\
    (ok = false -> this' = mkCOBSParser [9]) /\
    (ok = true -> m_message this' = removelast (dec_output s)).
Proof.
  assert (Hb : bytes [2; 0x11; 3; 0x22; 0x34; 0])
    by (repeat constructor; discriminate).
  assert (Hl : Z.of_nat (length [2; 0x11; 3; 0x22; 0x34; 0]) <= UINT32_MAX)
    by (vm_compute; discriminate).
  split; [exact Hb|]. split; [exact Hl|].
  exact (decode_result (mkCOBSParser [9]) [2; 0x11; 3; 0x22; 0x34; 0] Hb Hl).
Defined.

(** ** C4 and C5: the length of a frame *)

(** C4, refuted as stated.  The empty payload is encoded as the three
    bytes [0x01; 0x01; 0x00], and 3 is what [encodeMessage] returns, while
    [len(p) + 1 + floor((len(p)+1)/254) + 1] is 2: the formula misses
    one of the two bytes that frame every message, the first overhead
    byte and the end-of-frame byte.  With that byte added it is still
    no equality: for 253 sentinel bytes no block ever fills, the frame
    has 256 bytes, and [253 + 1 + floor(254/254) + 2] is 257. *)
Lemma length_formula_fails :
  encodeMessage [] 0 = Some (3, [1; 1; ASCII_NULL]) /\
  Z.of_nat (length [1; 1; ASCII_NULL]) <> length_formula 0 /\
  encodeMessage (replicate 253 ASCII_NULL) 253
  = Some (256, replicate 255 1 ++ [ASCII_NULL]) /\
  Z.of_nat (length (replicate 255 1 ++ [ASCII_NULL]))
  <> length_formula 253 + 1.
Proof.
  vm_compute. repeat split; first [reflexivity | discriminate].
Qed.

(** C4, amended.  For every payload [p] the frame of [encodeMessage] is
    at most [len(p) + 1 + floor((len(p)+1)/254) + 2] bytes long, one
    more than the formula, and exactly that long when neither a payload
    byte nor the check byte is the sentinel; the [uint32_t] result is the
    frame's length, as far as a [uint32_t] can hold it. *)
Theorem frame_length_le (p : list Z) :
  Z.of_nat (length p) <= UINT32_MAX ->
  let bound := length_formula (Z.of_nat (length p)) + 1 in
  exists n frame,
    encodeMessage p (Z.of_nat (length p)) = Some (n, frame) /\
    n = u32 (Z.of_nat (length frame)) /\
    (Z.of_nat (length frame) <= UINT32_MAX -> n = Z.of_nat (length frame)) /\
    Z.of_nat (length frame) <= bound /\
    (Z.of_nat (length p) < UINT32_MAX ->
     Forall nonzero (p ++ [crc_of p]) ->
     Z.of_nat (length frame) = bound).
Proof.
  intros Hlen bound. subst bound. unfold length_formula.
  eexists _, _. split; [apply encodeMessage_frame; exact Hlen|].
  split; [reflexivity|].
  split; [intros Hfit; apply u32_small; lia|].
  rewrite (frame_length p Hlen).
  pose proof (message_length p Hlen) as Hm.
  pose proof (u32_range (Z.of_nat (length p) + 1)) as Hr.
  pose proof (messageSize_le (Z.of_nat (length p)) ltac:(lia)) as Hle.
  split.
  - pose proof (full_blocks_le (message p) 0 ltac:(lia)) as Hf.
    rewrite Hm in Hf. simpl (Z.of_nat 0) in Hf. lia.
  - intros Hlt Hnz. rewrite message_full by exact Hlt.
    rewrite (full_blocks_nonzero _ 0 ltac:(lia) Hnz).
    rewrite u32_small by lia.
    rewrite length_app. simpl length. simpl (Z.of_nat 0). lia.
Qed.

Lemma frame_length_le_witness :
  Z.of_nat (length [3; 5]) <= UINT32_MAX /\
  exists n frame,
    encodeMessage [3; 5] 2 = Some (n, frame) /\
    n = u32 (Z.of_nat (length frame)) /\
    (Z.of_nat (length frame) <= UINT32_MAX -> n = Z.of_nat (length frame)) /\
    Z.of_nat (length frame) <= length_formula 2 + 1 /\
    (Z.of_nat (length [3; 5]) < UINT32_MAX ->
     Forall nonzero ([3; 5] ++ [crc_of [3; 5]]) ->
     Z.of_nat (length frame) = length_formula 2 + 1).
Proof.
  split; [vm_compute; discriminate|].
  apply (frame_length_le [3; 5]). vm_compute. discriminate.
Defined.

(** C5, refuted as stated.  Two payloads of 253 bytes, so of the same
    message size 254, have frames of different lengths: 256 bytes for
    253 sentinel bytes, 257 bytes for 253 bytes [0x01]. *)
Lemma length_depends_on_bytes :
  length (replicate 253 0) = length (replicate 253 1) /\
  exists frame0 frame1,
    encodeMessage (replicate 253 0) 253 = Some (256, frame0) /\
    encodeMessage (replicate 253 1) 253 = Some (257, frame1) /\
    length frame0 = 256%nat /\
    length frame1 = 257%nat.
Proof.
  split; [reflexivity|].
  eexists _, _. vm_compute. repeat split; reflexivity.
Qed.

(** C5, amended.  The size to which the output buffer is first resized
    is a function of the message size alone,
    [messageSize + floor(messageSize / 254) + 2].  The length of the
    encoded output lies between [messageSize + 2] and that size; it is
    that size when the logical message holds no sentinel byte, and
    [messageSize + 2] when the message is shorter than 254 bytes. *)
Theorem frame_length_range (p : list Z) :
  Z.of_nat (length p) <= UINT32_MAX ->
  let messageSize := u32 (Z.of_nat (length p) + 1) in
  exists n frame,
    encodeMessage p (Z.of_nat (length p)) = Some (n, frame) /\
    expectedLen messageSize = messageSize + messageSize / 254 + 2 /\
    messageSize + 2 <= Z.of_nat (length frame) <= expectedLen messageSize /\
    (Forall nonzero (message p) ->
     Z.of_nat (length frame) = expectedLen messageSize) /\
    (messageSize < 254 -> Z.of_nat (length frame) = messageSize + 2).
Proof.
  intros Hlen messageSize.
  pose proof (message_length p Hlen) as Hm. fold messageSize in Hm.
  pose proof (u32_range (Z.of_nat (length p) + 1)) as Hr.
  fold messageSize in Hr.
  eexists _, _. split; [apply encodeMessage_frame; exact Hlen|].
  rewrite (expectedLen_eq messageSize Hr).
  rewrite (frame_length p Hlen). fold messageSize.
  split; [reflexivity|].
  pose proof (full_blocks_le (message p) 0 ltac:(lia)) as Hf.
  rewrite Hm in Hf. simpl (Z.of_nat 0) in Hf.
  split; [lia|]. split.
  - intros Hnz. rewrite (full_blocks_nonzero _ 0 ltac:(lia) Hnz).
    rewrite Hm. simpl (Z.of_nat 0). lia.
  - intros Hshort. rewrite full_blocks_short by (simpl; lia). lia.
Qed.

Lemma frame_length_range_witness :
  Z.of_nat (length [0; 7; 0]) <= UINT32_MAX /\
  exists n frame,
    encodeMessage [0; 7; 0] 3 = Some (n, frame) /\
    expectedLen 4 = 4 + 4 / 254 + 2 /\
    4 + 2 <= Z.of_nat (length frame) <= expectedLen 4 /\
    (Forall nonzero (message [0; 7; 0]) ->
     Z.of_nat (length frame) = expectedLen 4) /\
    (4 < 254 -> Z.of_nat (length frame) = 4 + 2).
Proof.
  split; [vm_compute; discriminate|].
  apply (frame_length_range [0; 7; 0]). vm_compute. discriminate.
Defined.

(** ** C6: the full-block boundary *)

(** C6, refuted as stated.  The check byte of 254 bytes [0x01] is
    [0x00].  The encoder closes the full block after the 254th payload
    byte and opens a second block; the check byte, being the sentinel,
    closes that second block, empty, and opens a third, which the end of
    the message closes, empty as well.  The frame has three blocks, not
    two. *)
Lemma full_block_frame_has_three_blocks :
  exists frame,
    encodeMessage (replicate 254 1) 254 = Some (258, frame) /\
    blocks frame = [255 :: replicate 254 1; [1]; [1]] /\
    length (blocks frame) <> 2%nat.
Proof.
  eexists. split; [vm_compute; reflexivity|].
  split; [vm_compute; reflexivity|]. vm_compute. discriminate.
Qed.

(** C6, amended.  A payload of 254 bytes [0x01] has check byte [0x00]
    and is encoded as the 258 bytes [0xFF], 254 times [0x01], [0x01],
    [0x01], [0x00]: the leading block has overhead byte exactly [0xFF]
    and 254 literal bytes, and three blocks precede the end-of-frame
    byte, the full one and two empty ones.  When the decoder has read the
    full block and the overhead byte after it, its output is the 254
    literal bytes and nothing else: no sentinel is put back after the
    full block.  The only sentinel put back is the check byte, before the
    third block, and decoding succeeds with the payload in the store. *)
Theorem full_block_boundary (this : COBSParser) :
  let payload := replicate 254 1 in
  let frame := [255] ++ replicate 254 1 ++ [1; 1; ASCII_NULL] in
  calculateCRC payload 254 = Some 0 /\
  encodeMessage payload 254 = Some (258, frame) /\
  blocks frame = [255 :: replicate 254 1; [1]; [1]] /\
  decode_loop (take 256 frame) 256 decode_init
  = Some (DecState 256 0 1 (replicate 254 1)) /\
  (exists s,
     decode_loop frame (length frame) decode_init = Some s /\
     dec_output s = payload ++ [ASCII_NULL]) /\
  decodeMessage this frame = Some (true, mkCOBSParser payload).
Proof.
  intros payload frame. subst payload frame.
  split; [vm_compute; reflexivity|].
  split; [vm_compute; reflexivity|].
  split; [vm_compute; reflexivity|].
  split; [vm_compute; reflexivity|].
  split; [eexists; split; vm_compute; reflexivity|].
  vm_compute. reflexivity.
Qed.

(** ** C7: the empty payload *)

(** C7.  The check byte of the empty payload is [0x00], the sentinel, so
    it is encoded as a block boundary: [encodeMessage] yields exactly
    [0x01; 0x01; 0x00] and returns 3.  [decodeMessage] on that frame
    returns [true] and leaves an empty validated payload in the store,
    whatever the store held. *)
Theorem empty_payload (this : COBSParser) :
  calculateCRC [] 0 = Some ASCII_NULL /\
  encodeMessage [] 0 = Some (3, [1; 1; ASCII_NULL]) /\
  exists this',
    decodeMessage this [1; 1; ASCII_NULL] = Some (true, this') /\
    getMessage this' = [].
Proof.
  split; [reflexivity|]. split; [vm_compute; reflexivity|].
  exists (mkCOBSParser []). split; [vm_compute; reflexivity|reflexivity].
Qed.

(** ** C8: the checksum *)

(** C8.  On [len] bytes of [data], all of them bytes, [calculateCRC]
    reads inside [data] and returns the XOR of those [len] bytes folded
    from 0; for [len = 0] it returns 0.  It is a function of [data] and
    [len] and returns nothing but the checksum: [data] is not written. *)
Theorem calculateCRC_xor (data : list Z) (len : Z) :
  bytes data ->
  0 <= len <= UINT32_MAX ->
  len <= Z.of_nat (length data) ->
  calculateCRC data len = Some (xor_fold (take (Z.to_nat len) data)) /\
  calculateCRC data 0 = Some 0.
Proof.
  intros Hb Hl Hd. split; [|reflexivity].
  rewrite calculateCRC_take by assumption.
  rewrite crc_of_bytes; [reflexivity|].
  apply Forall_take. exact Hb.
Qed.

Lemma calculateCRC_xor_witness :
  bytes [0x12; 0x34; 0x56; 0xFF] /\
  0 <= 3 <= UINT32_MAX /\
  3 <= Z.of_nat (length [0x12; 0x34; 0x56; 0xFF]) /\
  calculateCRC [0x12; 0x34; 0x56; 0xFF] 3
  = Some (xor_fold (take (Z.to_nat 3) [0x12; 0x34; 0x56; 0xFF])) /\
  calculateCRC [0x12; 0x34; 0x56; 0xFF] 0 = Some 0.
Proof.
  assert (Hb : bytes [0x12; 0x34; 0x56; 0xFF])
    by (repeat constructor; discriminate).
  assert (Hl : 0 <= 3 <= UINT32_MAX) by (split; vm_compute; discriminate).
  assert (Hd : 3 <= Z.of_nat (length [0x12; 0x34; 0x56; 0xFF]))
    by (vm_compute; discriminate).
  split; [exact Hb|]. split; [exact Hl|]. split; [exact Hd|].
  exact (calculateCRC_xor [0x12; 0x34; 0x56; 0xFF] 3 Hb Hl Hd).
Defined.

(** ** C9: decoding always ends *)

(** C9.  For every input whatsoever, the empty one included:
    - an iteration of the scan loop that starts inside the input reads
      one byte, never fails, leaves the read position one byte further,
      and ends in [break] exactly when it read the sentinel while
      expecting an overhead byte;
    - run with fuel for each byte still unread, the loop ends, at a
      position inside the input or at its end, and it ends either with
      the input exhausted or by that [break]; before it ends it makes
      only iterations that do not end in [break], up to a state [last],
      and then either the input is exhausted and [last] is the final
      state, or the iteration at [last] is the first to read the
      sentinel while expecting an overhead byte, and the state in which
      that iteration leaves by [break] is the final state: nothing
      behind that sentinel is read;
    - [decodeMessage] returns a boolean and a store, and more fuel than
      the length of the input changes nothing: there is no third
      outcome. *)
Theorem decodeMessage_total (this : COBSParser) (input : list Z) :
  (forall s,
     (dec_pos s < length input)%nat ->
     exists b r,
       input !! dec_pos s = Some b /\
       decode_body input s = Some r /\
       dec_pos (flow_state r) = S (dec_pos s) /\
       ((exists s', r = Break s') <->
        ~ blockSize s > 0 /\ b = ASCII_NULL)) /\
  (forall fuel s,
     (dec_pos s <= length input)%nat ->
     (length input - dec_pos s <= fuel)%nat ->
     exists s' last,
       decode_loop input fuel s = Some s' /\
       (dec_pos s <= dec_pos s' <= length input)%nat /\
       stopped input s' /\
       iterates input s last /\
       (dec_pos last = length input /\ s' = last \/
        (dec_pos last < length input)%nat /\
        decode_body input last = Some (Break s'))) /\
  (exists ok this', decodeMessage this input = Some (ok, this')) /\
  (forall fuel,
     (length input <= fuel)%nat ->
     decodeMessage_fuel fuel this input = decodeMessage this input).
Proof.
  split; [intros s Hs; apply decode_body_Some; exact Hs|].
  split.
  { intros fuel s Hpos Hfuel.
    destruct (decode_loop_unstuff input fuel s Hfuel)
      as (s' & Hrun & Hle & Hin & _).
    destruct (decode_loop_iterates input fuel s s' Hpos Hrun)
      as (last & Hit & Hend).
    exists s', last. split; [exact Hrun|].
    split; [split; [exact Hle|apply Hin, Hpos]|].
    split; [exact (decode_loop_stops input fuel s s' Hrun)|].
    split; [exact Hit|exact Hend]. }
  split.
  { rewrite decodeMessage_recovered. apply decode_validate_Some. }
  intros fuel Hfuel. unfold decodeMessage, decodeMessage_fuel.
  destruct (decode_loop_recovered input (length input) (Nat.le_refl _))
    as (s & Hrun & _).
  rewrite Hrun.
  rewrite (decode_loop_more_fuel input (length input) fuel _ s Hrun Hfuel).
  reflexivity.
Qed.

Lemma decodeMessage_total_witness :
  ((dec_pos decode_init < length [2; 0x11; 0; 7]%Z)%nat /\
   exists b r,
     [2; 0x11; 0; 7] !! dec_pos decode_init = Some b /\
     decode_body [2; 0x11; 0; 7] decode_init = Some r /\
     dec_pos (flow_state r) = S (dec_pos decode_init) /\
     ((exists s', r = Break s') <->
      ~ blockSize decode_init > 0 /\ b = ASCII_NULL)) /\
  ((dec_pos decode_init <= length [2; 0x11; 0; 7]%Z)%nat /\
   (length [2; 0x11; 0; 7]%Z - dec_pos decode_init <= 4)%nat /\
   exists s' last,
     decode_loop [2; 0x11; 0; 7] 4 decode_init = Some s' /\
     (dec_pos decode_init <= dec_pos s' <= length [2; 0x11; 0; 7]%Z)%nat /\
     stopped [2; 0x11; 0; 7] s' /\
     iterates [2; 0x11; 0; 7] decode_init last /\
     (dec_pos last = length [2; 0x11; 0; 7] /\ s' = last \/
      (dec_pos last < length [2; 0x11; 0; 7]%Z)%nat /\
      decode_body [2; 0x11; 0; 7] last = Some (Break s'))) /\
  ((length [2; 0x11; 0; 7]%Z <= 6)%nat /\
   decodeMessage_fuel 6 (mkCOBSParser [9]) [2; 0x11; 0; 7]
   = decodeMessage (mkCOBSParser [9]) [2; 0x11; 0; 7]).
Proof.
  pose proof (decodeMessage_total (mkCOBSParser [9]) [2; 0x11; 0; 7])
    as (Hbody & Hloop & _ & Hfuel).
  assert (H1 : (dec_pos decode_init < length [2; 0x11; 0; 7]%Z)%nat)
    by (simpl; lia).
  assert (H2 : (dec_pos decode_init <= length [2; 0x11; 0; 7]%Z)%nat)
    by (simpl; lia).
  assert (H3 : (length [2; 0x11; 0; 7]%Z - dec_pos decode_init <= 4)%nat)
    by (simpl; lia).
  assert (H4 : (length [2; 0x11; 0; 7]%Z <= 6)%nat) by (simpl; lia).
  split; [split; [exact H1|exact (Hbody decode_init H1)]|].
  split; [split; [exact H2|split; [exact H3|]];
          exact (Hloop 4%nat decode_init H2 H3)|].
  split; [exact H4|exact (Hfuel 6%nat H4)].
Defined.

(** ** C10: the encoder stays inside its buffer *)

(** C10.  For every payload (of a length that [inputSize] can hold) the
    output buffer is resized to
    [expectedLen = messageSize + floor(messageSize/254) + 2] bytes, the
    encoding loop runs to its end, which it can only do if each of its
    writes through [encodedMessage] and [overheadByte] was inside the
    buffer, and so do the two writes after the loop.  The number of
    bytes written, [actualLen], is at most the size of the buffer, so the
    final resize keeps a prefix of it and does not grow it. *)
Theorem writes_in_bounds (p : list Z) :
  Z.of_nat (length p) <= UINT32_MAX ->
  let inputSize := Z.of_nat (length p) in
  let messageSize := u32 (inputSize + 1) in
  let size := Z.to_nat (expectedLen messageSize) in
  exists crc s buf1 buf2,
    expectedLen messageSize = messageSize + messageSize / 254 + 2 /\
    calculateCRC p inputSize = Some crc /\
    encode_loop p inputSize crc (Z.to_nat messageSize) 0
      (EncState (replicate size 0) 1 0 1) = Some s /\
    poke (enc_output s) (overheadByte s) (overheadCount s) = Some buf1 /\
    poke buf1 (encodedMessage s) ASCII_NULL = Some buf2 /\
    length buf2 = size /\
    (S (encodedMessage s) <= size)%nat /\
    encodeMessage p inputSize
    = Some (u32 (Z.of_nat (S (encodedMessage s))),
            take (S (encodedMessage s)) buf2).
Proof.
  intros Hlen inputSize messageSize size.
  subst inputSize messageSize size.
  assert (Hcrc : calculateCRC p (Z.of_nat (length p)) = Some (crc_of p))
    by (apply calculateCRC_all; exact Hlen).
  pose proof (encodeMessage_frame p Hlen) as Henc.
  unfold encodeMessage in Henc |- *.
  rewrite Hcrc in Henc |- *. simpl in Henc |- *.
  destruct (encode_loop p _ (crc_of p) _ 0 _) as [s|] eqn:Hloop;
    [|discriminate].
  pose proof (encode_loop_length _ _ _ _ _ _ _ Hloop) as Hl.
  simpl in Hl. rewrite length_replicate in Hl.
  simpl in Henc |- *. unfold encode_finish in Henc |- *.
  destruct (poke (enc_output s) (overheadByte s) (overheadCount s))
    as [buf1|] eqn:Hp1; [|discriminate].
  simpl in Henc |- *.
  destruct (poke buf1 (encodedMessage s) ASCII_NULL)
    as [buf2|] eqn:Hp2; [|discriminate].
  simpl. clear Henc.
  destruct (poke_length _ _ _ _ Hp1) as [Hl1 _].
  destruct (poke_length _ _ _ _ Hp2) as [Hl2 Hin].
  exists (crc_of p), s, buf1, buf2.
  split; [apply expectedLen_eq, u32_range|].
  split; [reflexivity|]. split; [exact Hloop|].
  split; [exact Hp1|]. split; [exact Hp2|].
  split; [lia|]. split; [lia|].
  rewrite resize_le by lia. reflexivity.
Qed.

Lemma writes_in_bounds_witness :
  Z.of_nat (length [1; 0; 0; 2]) <= UINT32_MAX /\
  exists crc s buf1 buf2,
    expectedLen 5 = 5 + 5 / 254 + 2 /\
    calculateCRC [1; 0; 0; 2] 4 = Some crc /\
    encode_loop [1; 0; 0; 2] 4 crc 5 0
      (EncState (replicate 7 0) 1 0 1) = Some s /\
    poke (enc_output s) (overheadByte s) (overheadCount s) = Some buf1 /\
    poke buf1 (encodedMessage s) ASCII_NULL = Some buf2 /\
    length buf2 = 7%nat /\
    (S (encodedMessage s) <= 7)%nat /\
    encodeMessage [1; 0; 0; 2] 4
    = Some (u32 (Z.of_nat (S (encodedMessage s))),
            take (S (encodedMessage s)) buf2).
Proof.
  split; [vm_compute; discriminate|].
  apply (writes_in_bounds [1; 0; 0; 2]). vm_compute. discriminate.
Defined.

(** * Further properties of the code *)

(** ** Shared lemmas *)

Lemma foldl_lxor_acc (l : list Z) :
  forall acc, foldl Z.lxor acc l = Z.lxor acc (foldl Z.lxor 0 l).
Proof.
  induction l as [|b l IH]; intros acc; simpl.
  - rewrite Z.lxor_0_r. reflexivity.
  - rewrite (IH (Z.lxor acc b)), (IH (Z.lxor 0 b)), Z.lxor_0_l, Z.lxor_assoc.
    reflexivity.
Qed.

Lemma xor_fold_app (l k : list Z) :
  xor_fold (l ++ k) = Z.lxor (xor_fold l) (xor_fold k).
Proof. unfold xor_fold. rewrite foldl_app. apply foldl_lxor_acc. Qed.

Lemma xor_fold_snoc_zero (l : list Z) (c : Z) :
  xor_fold (l ++ [c]) = 0 <-> xor_fold l = c.
Proof.
  rewrite xor_fold_app. unfold xor_fold at 2. simpl. apply Z.lxor_eq_0_iff.
Qed.

(** What [decodeMessage] does, by the sequence its loop recovers. *)
Lemma decodeMessage_cases (this : COBSParser) (input : list Z) :
  bytes input ->
  Z.of_nat (length input) <= UINT32_MAX ->
  (decodeMessage this input = Some (false, this) /\
   (recovered input = [] \/
    exists payload c,
      recovered input = payload ++ [c] /\ xor_fold payload <> c)) \/
  (exists payload,
     recovered input = payload ++ [xor_fold payload] /\
     bytes payload /\
     decodeMessage this input = Some (true, mkCOBSParser payload)).
Proof.
  intros Hbytes Hlen. rewrite decodeMessage_recovered.
  assert (Hob : bytes (recovered input))
    by (apply unstuff_bytes; [assumption|constructor]).
  assert (Hol : (length (recovered input) <= length input)%nat)
    by (apply (unstuff_length input 0 MAX_BLOCK_SIZE [])).
  destruct (recovered input) as [|x out'] eqn:Hrec using rev_ind.
  { left. split; [reflexivity|]. left. reflexivity. }
  clear IHout'. rename out' into payload.
  assert (Hpb : bytes payload) by (apply Forall_app in Hob; tauto).
  assert (Hpl : Z.of_nat (length payload) <= UINT32_MAX)
    by (rewrite length_app in Hol; lia).
  unfold decode_validate.
  rewrite decide_False by (intros H; destruct payload; discriminate).
  rewrite last_snoc, removelast_last. simpl.
  rewrite u32_small by lia.
  rewrite calculateCRC_all by assumption. simpl.
  rewrite (crc_of_bytes payload Hpb).
  destruct (decide (xor_fold payload = x)) as [Heq|Hne].
  - right. exists payload. subst x. repeat split; assumption.
  - left. split; [reflexivity|]. right. exists payload, x. split; trivial.
Qed.

Lemma unstuff_stuff_app (msg : list Z) :
  forall cur oc out junk,
    (length cur < 254)%nat ->
    unstuff (stuff msg cur ++ junk) 0 oc out
    = out ++ reinserted oc ++ cur ++ msg.
Proof.
  induction msg as [|b msg IH]; intros cur oc out junk Hcur; simpl stuff.
  - replace (((1 + Z.of_nat (length cur)) :: cur ++ [ASCII_NULL]) ++ junk)
      with ((1 + Z.of_nat (length cur)) :: cur ++ (ASCII_NULL :: junk))
      by list_eq.
    rewrite unstuff_block by lia. simpl.
    rewrite !app_nil_r. reflexivity.
  - destruct (decide (b = ASCII_NULL)) as [Hb|Hb].
    + replace (((1 + Z.of_nat (length cur)) :: cur ++ stuff msg []) ++ junk)
        with ((1 + Z.of_nat (length cur)) :: cur ++ (stuff msg [] ++ junk))
        by list_eq.
      rewrite unstuff_block by lia.
      rewrite IH by (simpl; lia).
      rewrite (reinserted_partial (1 + Z.of_nat (length cur)))
        by (unfold MAX_BLOCK_SIZE; lia).
      subst b. list_eq.
    + destruct (decide (length (cur ++ [b]) = 254%nat)) as [Hfull|Hfull].
      * replace ((MAX_BLOCK_SIZE :: (cur ++ [b]) ++ stuff msg []) ++ junk)
          with (MAX_BLOCK_SIZE :: (cur ++ [b]) ++ (stuff msg [] ++ junk))
          by list_eq.
        rewrite unstuff_block
          by (rewrite ?Hfull; unfold MAX_BLOCK_SIZE; lia).
        rewrite IH by (simpl; lia).
        rewrite reinserted_full. list_eq.
      * rewrite IH by (rewrite length_app in *; simpl in *; lia).
        list_eq.
Qed.

Lemma unstuff_stuff_body (msg : list Z) :
  forall cur oc out body,
    (length cur < 254)%nat ->
    stuff msg cur = body ++ [ASCII_NULL] ->
    unstuff body 0 oc out = out ++ reinserted oc ++ cur ++ msg.
Proof.
  induction msg as [|b msg IH]; intros cur oc out body Hcur Hbody;
    simpl stuff in Hbody.
  - replace ((1 + Z.of_nat (length cur)) :: cur ++ [ASCII_NULL])
      with (((1 + Z.of_nat (length cur)) :: cur) ++ [ASCII_NULL])
      in Hbody by list_eq.
    apply app_inj_tail in Hbody as [<- _].
    rewrite <- (app_nil_r cur) at 2.
    rewrite unstuff_block by lia. simpl.
    rewrite !app_nil_r. reflexivity.
  - destruct (stuff_sentinel msg [] (Forall_nil_2 _)) as (body' & Hb' & _).
    destruct (decide (b = ASCII_NULL)) as [Hb|Hb].
    + rewrite Hb' in Hbody.
      replace ((1 + Z.of_nat (length cur)) :: cur ++ body' ++ [ASCII_NULL])
        with (((1 + Z.of_nat (length cur)) :: cur ++ body') ++ [ASCII_NULL])
        in Hbody by list_eq.
      apply app_inj_tail in Hbody as [<- _].
      rewrite unstuff_block by lia.
      rewrite (IH [] _ _ body') by (simpl; lia || assumption).
      rewrite (reinserted_partial (1 + Z.of_nat (length cur)))
        by (unfold MAX_BLOCK_SIZE; lia).
      subst b. list_eq.
    + destruct (decide (length (cur ++ [b]) = 254%nat)) as [Hfull|Hfull].
      * rewrite Hb' in Hbody.
        replace (MAX_BLOCK_SIZE :: (cur ++ [b]) ++ body' ++ [ASCII_NULL])
          with ((MAX_BLOCK_SIZE :: (cur ++ [b]) ++ body') ++ [ASCII_NULL])
          in Hbody by list_eq.
        apply app_inj_tail in Hbody as [<- _].
        rewrite unstuff_block
          by (rewrite ?Hfull; unfold MAX_BLOCK_SIZE; lia).
        rewrite (IH [] _ _ body') by (simpl; lia || assumption).
        rewrite reinserted_full. list_eq.
      * rewrite (IH (cur ++ [b]) _ _ body)
          by (rewrite ?length_app in *; simpl in *; lia || assumption).
        list_eq.
Qed.

Lemma decode_validate_true (this this' : COBSParser) (output : list Z) :
  decode_validate this output = Some (true, this') ->
  output <> [] /\ m_message this' = removelast output.
Proof.
  unfold decode_validate.
  destruct (decide (output = [])) as [Hnil|Hnil]; [discriminate|].
  destruct (last output) as [c|]; [|discriminate]. simpl.
  destruct (calculateCRC _ _) as [c'|]; [|discriminate]. simpl.
  destruct (decide (c' = c)); [|discriminate].
  intros [= <-]. split; [assumption|reflexivity].
Qed.

Lemma recovered_shorter (input : list Z) :
  input <> [] -> (length (recovered input) < length input)%nat.
Proof.
  destruct input as [|b rest]; [congruence|]. intros _.
  unfold recovered. cbn [unstuff].
  rewrite decide_False by lia.
  destruct (decide (b = ASCII_NULL)); [simpl; lia|].
  rewrite decide_False by tauto.
  pose proof (unstuff_length rest (u8 (b - 1)) b []) as H.
  simpl in *. lia.
Qed.

(** ** X1: bytes after the end-of-frame byte *)

(** X1.  The scan loop leaves at the end-of-frame byte of a frame, so
    what follows a frame in the input is not looked at: for every payload
    [p] shorter than [2^32 - 1] bytes, whether or not it respects
    [MAX_FRAME_SIZE], and every sequence [junk], [decodeMessage] on the
    frame of [p] followed by [junk] returns [true] and stores [p]. *)
Theorem decode_ignores_trailing (this : COBSParser) (p junk : list Z) :
  Z.of_nat (length p) < UINT32_MAX ->
  exists n frame,
    encodeMessage p (Z.of_nat (length p)) = Some (n, frame) /\
    decodeMessage this (frame ++ junk) = Some (true, mkCOBSParser p).
Proof.
  intros Hlen.
  eexists _, _. split; [apply encodeMessage_frame; lia|].
  rewrite decodeMessage_recovered. unfold recovered.
  rewrite unstuff_stuff_app by (simpl; lia).
  rewrite reinserted_full, message_full by exact Hlen.
  apply decode_validate_ok. lia.
Qed.

Lemma decode_ignores_trailing_witness :
  Z.of_nat (length [0x10; 0x00; 0x20]) < UINT32_MAX /\
  exists n frame,
    encodeMessage [0x10; 0x00; 0x20] 3 = Some (n, frame) /\
    decodeMessage (mkCOBSParser [1]) (frame ++ [0x09; 0x00; 0x33])
    = Some (true, mkCOBSParser [0x10; 0x00; 0x20]).
Proof.
  split; [vm_compute; reflexivity|].
  apply (decode_ignores_trailing (mkCOBSParser [1]) [0x10; 0x00; 0x20]
           [0x09; 0x00; 0x33]).
  vm_compute. reflexivity.
Defined.

(** ** X2: a frame without its end-of-frame byte *)

(** X2.  The scan loop also ends when the input is exhausted, and the
    last block of a frame ends where the end-of-frame byte begins: the
    frame of a payload [p] with its end-of-frame byte cut off still
    decodes to [true] with [p] in the store. *)
Theorem decode_without_sentinel (this : COBSParser) (p : list Z) :
  Z.of_nat (length p) < UINT32_MAX ->
  exists n body,
    encodeMessage p (Z.of_nat (length p)) = Some (n, body ++ [ASCII_NULL]) /\
    decodeMessage this body = Some (true, mkCOBSParser p).
Proof.
  intros Hlen.
  destruct (stuff_sentinel (message p) [] (Forall_nil_2 _))
    as (body & Hbody & _).
  exists (u32 (Z.of_nat (length (stuff (message p) [])))), body.
  split; [rewrite <- Hbody; apply encodeMessage_frame; lia|].
  rewrite decodeMessage_recovered. unfold recovered.
  rewrite (unstuff_stuff_body (message p) [] _ _ body)
    by (simpl; lia || assumption).
  rewrite reinserted_full, message_full by exact Hlen.
  apply decode_validate_ok. lia.
Qed.

Lemma decode_without_sentinel_witness :
  Z.of_nat (length [0x10; 0x00; 0x20]) < UINT32_MAX /\
  exists n body,
    encodeMessage [0x10; 0x00; 0x20] 3 = Some (n, body ++ [ASCII_NULL]) /\
    decodeMessage (mkCOBSParser [1]) body
    = Some (true, mkCOBSParser [0x10; 0x00; 0x20]).
Proof.
  split; [vm_compute; reflexivity|].
  apply (decode_without_sentinel (mkCOBSParser [1]) [0x10; 0x00; 0x20]).
  vm_compute. reflexivity.
Defined.

(** ** X3: different payloads, different frames *)

(** X3.  [encodeMessage] writes the same frame for two payloads (each
    shorter than [2^32 - 1] bytes) only if they are the same payload. *)
Theorem encode_injective (p1 p2 : list Z) (n1 n2 : Z) (frame : list Z) :
  Z.of_nat (length p1) < UINT32_MAX ->
  Z.of_nat (length p2) < UINT32_MAX ->
  encodeMessage p1 (Z.of_nat (length p1)) = Some (n1, frame) ->
  encodeMessage p2 (Z.of_nat (length p2)) = Some (n2, frame) ->
  p1 = p2.
Proof.
  intros H1 H2 E1 E2.
  rewrite encodeMessage_frame in E1 by lia.
  rewrite encodeMessage_frame in E2 by lia.
  injection E1 as _ F1. injection E2 as _ F2.
  assert (Hm : message p1 = message p2).
  { rewrite <- (recovered_stuff (message p1)),
            <- (recovered_stuff (message p2)).
    congruence. }
  rewrite !message_full in Hm by assumption.
  apply app_inj_tail in Hm. tauto.
Qed.

Lemma encode_injective_witness :
  Z.of_nat (length [0x05; 0x00]) < UINT32_MAX /\
  encodeMessage [0x05; 0x00] 2 = Some (5, [2; 5; 2; 5; 0]) /\
  [0x05; 0x00] = [0x05; 0x00].
Proof.
  assert (H : Z.of_nat (length [0x05; 0x00]) < UINT32_MAX)
    by (vm_compute; reflexivity).
  assert (E : encodeMessage [0x05; 0x00] (Z.of_nat (length [0x05; 0x00]))
              = Some (5, [2; 5; 2; 5; 0]))
    by (vm_compute; reflexivity).
  split; [exact H|]. split; [exact E|].
  exact (encode_injective [0x05; 0x00] [0x05; 0x00] 5 5 [2; 5; 2; 5; 0]
           H H E E).
Defined.

(** ** X4: inputs that begin with the sentinel *)

(** X4.  An input that is empty or whose first byte is the sentinel
    recovers nothing, whatever follows that byte: [decodeMessage] returns
    [false] and the store is the one it was called with. *)
Theorem decode_leading_sentinel (this : COBSParser) (rest : list Z) :
  decodeMessage this [] = Some (false, this) /\
  decodeMessage this (ASCII_NULL :: rest) = Some (false, this).
Proof.
  split; rewrite decodeMessage_recovered; reflexivity.
Qed.

(** ** X5: a valid input is longer than its payload *)

(** X5.  The first byte read is an overhead byte and puts nothing into
    [output], and every later byte puts at most one byte there, so the
    recovered sequence is shorter than a non-empty input.  Hence whenever
    [decodeMessage] returns [true], the stored payload is at least two
    bytes shorter than the input. *)
Theorem decode_payload_shorter (this this' : COBSParser) (input : list Z) :
  decodeMessage this input = Some (true, this') ->
  (length (getMessage this') + 2 <= length input)%nat.
Proof.
  rewrite decodeMessage_recovered. intros Hok.
  apply decode_validate_true in Hok as [Hne Hm].
  unfold getMessage. rewrite Hm.
  assert (Hin : input <> []) by (intros ->; apply Hne; reflexivity).
  pose proof (recovered_shorter input Hin) as Hlt.
  destruct (recovered input) as [|x out] using rev_ind; [congruence|].
  rewrite removelast_last. rewrite length_app in Hlt. simpl in Hlt. lia.
Qed.

Lemma decode_payload_shorter_witness :
  decodeMessage (mkCOBSParser []) [2; 0x11; 3; 0x22; 0x33; 0]
  = Some (true, mkCOBSParser [0x11; 0x00; 0x22]) /\
  (length (getMessage (mkCOBSParser [0x11; 0x00; 0x22]%Z)) + 2
   <= length [2; 0x11; 3; 0x22; 0x33; 0]%Z)%nat.
Proof.
  assert (H : decodeMessage (mkCOBSParser []) [2; 0x11; 3; 0x22; 0x33; 0]
              = Some (true, mkCOBSParser [0x11; 0x00; 0x22]))
    by (vm_compute; reflexivity).
  split; [exact H|].
  exact (decode_payload_shorter _ _ _ H).
Defined.

Lemma xor_fold_insert (data : list Z) (i : nat) (a b : Z) :
  data !! i = Some a ->
  xor_fold (<[i:=b]> data) = Z.lxor (xor_fold data) (Z.lxor a b).
Proof.
  intros Hi.
  assert (Hlt : (i < length data)%nat) by (eapply lookup_lt_Some; eassumption).
  rewrite (insert_take_drop data i b Hlt).
  rewrite <- (take_drop_middle data i a Hi) at 3.
  rewrite !xor_fold_app.
  change (xor_fold (b :: drop (S i) data))
    with (xor_fold ([b] ++ drop (S i) data)).
  change (xor_fold (a :: drop (S i) data))
    with (xor_fold ([a] ++ drop (S i) data)).
  rewrite !xor_fold_app.
  change (xor_fold [a]) with (Z.lxor 0 a).
  change (xor_fold [b]) with (Z.lxor 0 b).
  rewrite !Z.lxor_0_l.
  set (x := xor_fold (take i data)). set (y := xor_fold (drop (S i) data)).
  apply Z.bits_inj'. intros n _. rewrite !Z.lxor_spec.
  destruct (Z.testbit x n), (Z.testbit y n), (Z.testbit a n),
    (Z.testbit b n); reflexivity.
Qed.

Lemma xor_fold_insert_ne (data : list Z) (i : nat) (a b : Z) :
  data !! i = Some a -> b <> a ->
  xor_fold (<[i:=b]> data) <> xor_fold data.
Proof.
  intros Hi Hne Heq.
  rewrite (xor_fold_insert data i a b Hi) in Heq.
  assert (H0 : Z.lxor a b = 0).
  { rewrite <- (Z.lxor_0_l (Z.lxor a b)).
    rewrite <- (Z.lxor_nilpotent (xor_fold data)).
    rewrite Z.lxor_assoc, Heq. reflexivity. }
  apply Z.lxor_eq in H0. congruence.
Qed.

Lemma bytes_insert (data : list Z) (i : nat) (b : Z) :
  bytes data -> is_byte b -> bytes (<[i:=b]> data).
Proof. intros Hd Hb. apply Forall_insert; assumption. Qed.

(** ** X6: accepted means the recovered bytes XOR to zero *)

(** X6.  For an input of bytes (of a length that a [uint32_t] can hold),
    [decodeMessage] returns [true] exactly when the sequence its loop
    recovers is not empty and the XOR of all its bytes, check byte
    included, is 0. *)
Theorem decode_accepts_iff_xor_zero (this : COBSParser) (input : list Z) :
  bytes input ->
  Z.of_nat (length input) <= UINT32_MAX ->
  exists s ok this',
    decode_loop input (length input) decode_init = Some s /\
    decodeMessage this input = Some (ok, this') /\
    (ok = true <-> dec_output s <> [] /\ xor_fold (dec_output s) = 0).
Proof.
  intros Hbytes Hlen.
  destruct (decode_loop_recovered input (length input) (Nat.le_refl _))
    as (s & Hrun & Hout).
  exists s. rewrite Hrun, Hout.
  destruct (decodeMessage_cases this input Hbytes Hlen)
    as [[Hdec [Hnil|(payload & c & Hrec & Hne)]]|(payload & Hrec & _ & Hdec)];
    rewrite Hdec.
  - exists false, this. split; [reflexivity|]. split; [reflexivity|].
    split; [discriminate|]. intros [H _]. contradiction.
  - exists false, this. split; [reflexivity|]. split; [reflexivity|].
    split; [discriminate|]. intros [_ H]. rewrite Hrec in H.
    apply (proj1 (xor_fold_snoc_zero payload c)) in H. contradiction.
  - exists true, (mkCOBSParser payload).
    split; [reflexivity|]. split; [reflexivity|].
    split; [|reflexivity]. intros _. rewrite Hrec. split.
    + intros H. destruct payload; discriminate.
    + apply (proj2 (xor_fold_snoc_zero payload (xor_fold payload))).
      reflexivity.
Qed.

Lemma decode_accepts_iff_xor_zero_witness :
  bytes [2; 0x11; 3; 0x22; 0x33; 0] /\
  Z.of_nat (length [2; 0x11; 3; 0x22; 0x33; 0]) <= UINT32_MAX /\
  exists s ok this',
    decode_loop [2; 0x11; 3; 0x22; 0x33; 0] 6 decode_init = Some s /\
    decodeMessage (mkCOBSParser []) [2; 0x11; 3; 0x22; 0x33; 0]
    = Some (ok, this') /\
    (ok = true <-> dec_output s <> [] /\ xor_fold (dec_output s) = 0).
Proof.
  assert (Hb : bytes [2; 0x11; 3; 0x22; 0x33; 0])
    by (repeat constructor; discriminate).
  assert (Hl : Z.of_nat (length [2; 0x11; 3; 0x22; 0x33; 0]) <= UINT32_MAX)
    by (vm_compute; discriminate).
  split; [exact Hb|]. split; [exact Hl|].
  exact (decode_accepts_iff_xor_zero (mkCOBSParser [])
           [2; 0x11; 3; 0x22; 0x33; 0] Hb Hl).
Defined.

(** ** X7: the checksum sees every change of one byte *)

(** X7.  Replacing one byte of [data] by a different byte changes what
    [calculateCRC] returns for it. *)
Theorem crc_detects_byte_change (data : list Z) (i : nat) (a b : Z) :
  bytes data ->
  is_byte b ->
  Z.of_nat (length data) <= UINT32_MAX ->
  data !! i = Some a ->
  b <> a ->
  calculateCRC (<[i:=b]> data) (Z.of_nat (length data))
  <> calculateCRC data (Z.of_nat (length data)).
Proof.
  intros Hd Hb Hlen Hi Hne.
  rewrite (calculateCRC_all data Hlen).
  rewrite <- (length_insert data i b) at 1.
  rewrite calculateCRC_all by (rewrite length_insert; exact Hlen).
  rewrite crc_of_bytes by (apply bytes_insert; assumption).
  rewrite (crc_of_bytes data Hd).
  intros [= H]. exact (xor_fold_insert_ne data i a b Hi Hne H).
Qed.

Lemma crc_detects_byte_change_witness :
  bytes [0x12; 0x34; 0x56] /\
  is_byte 0x35 /\
  Z.of_nat (length [0x12; 0x34; 0x56]) <= UINT32_MAX /\
  [0x12; 0x34; 0x56] !! 1%nat = Some 0x34 /\
  0x35 <> 0x34 /\
  calculateCRC (<[1%nat:=0x35]> [0x12; 0x34; 0x56])
    (Z.of_nat (length [0x12; 0x34; 0x56]))
  <> calculateCRC [0x12; 0x34; 0x56] (Z.of_nat (length [0x12; 0x34; 0x56])).
Proof.
  assert (Hd : bytes [0x12; 0x34; 0x56])
    by (repeat constructor; discriminate).
  assert (Hb : is_byte 0x35) by (split; vm_compute; congruence).
  assert (Hl : Z.of_nat (length [0x12; 0x34; 0x56]) <= UINT32_MAX)
    by (vm_compute; discriminate).
  assert (Hi : [0x12; 0x34; 0x56] !! 1%nat = Some 0x34) by reflexivity.
  assert (Hne : 0x35 <> 0x34) by discriminate.
  split; [exact Hd|]. split; [exact Hb|]. split; [exact Hl|].
  split; [exact Hi|]. split; [exact Hne|].
  exact (crc_detects_byte_change [0x12; 0x34; 0x56] 1 0x34 0x35
           Hd Hb Hl Hi Hne).
Defined.

(** ** X8: a changed payload byte is rejected *)

(** X8.  If the sequence recovered from an input is a payload in which
    one byte was replaced by a different byte, followed by the check byte
    of the payload as it was, then [decodeMessage] returns [false] and
    the store is the one it was called with. *)
Theorem decode_rejects_byte_change (this : COBSParser) (input : list Z)
    (s : dec_state) (data : list Z) (crc : Z) (i : nat) (a b : Z) :
  bytes data ->
  is_byte b ->
  Z.of_nat (length data) <= UINT32_MAX ->
  data !! i = Some a ->
  b <> a ->
  calculateCRC data (Z.of_nat (length data)) = Some crc ->
  decode_loop input (length input) decode_init = Some s ->
  dec_output s = <[i:=b]> data ++ [crc] ->
  decodeMessage this input = Some (false, this).
Proof.
  intros Hd Hb Hlen Hi Hne Hcrc Hrun Hout.
  rewrite (calculateCRC_all data Hlen) in Hcrc. injection Hcrc as <-.
  unfold decodeMessage, decodeMessage_fuel. rewrite Hrun. simpl.
  rewrite Hout. unfold decode_validate.
  rewrite decide_False by (intros H; destruct (<[i:=b]> data); discriminate).
  rewrite last_snoc, removelast_last. simpl.
  rewrite u32_small by (rewrite length_insert; lia).
  rewrite calculateCRC_all by (rewrite length_insert; exact Hlen). simpl.
  rewrite crc_of_bytes by (apply bytes_insert; assumption).
  rewrite (crc_of_bytes data Hd).
  rewrite decide_False by exact (xor_fold_insert_ne data i a b Hi Hne).
  reflexivity.
Qed.

Lemma decode_rejects_byte_change_witness :
  bytes [0x11; 0x00; 0x22] /\
  is_byte 0x23 /\
  Z.of_nat (length [0x11; 0x00; 0x22]) <= UINT32_MAX /\
  [0x11; 0x00; 0x22] !! 2%nat = Some 0x22 /\
  0x23 <> 0x22 /\
  calculateCRC [0x11; 0x00; 0x22] (Z.of_nat (length [0x11; 0x00; 0x22]))
  = Some 0x33 /\
  decode_loop [2; 0x11; 3; 0x23; 0x33; 0]
    (length [2; 0x11; 3; 0x23; 0x33; 0]) decode_init
  = Some (DecState 6 0 3 [0x11; 0x00; 0x23; 0x33]) /\
  dec_output (DecState 6 0 3 [0x11; 0x00; 0x23; 0x33])
  = <[2%nat:=0x23]> [0x11; 0x00; 0x22] ++ [0x33] /\
  decodeMessage (mkCOBSParser [7]) [2; 0x11; 3; 0x23; 0x33; 0]
  = Some (false, mkCOBSParser [7]).
Proof.
  assert (Hd : bytes [0x11; 0x00; 0x22])
    by (repeat constructor; discriminate).
  assert (Hb : is_byte 0x23) by (split; vm_compute; congruence).
  assert (Hl : Z.of_nat (length [0x11; 0x00; 0x22]) <= UINT32_MAX)
    by (vm_compute; discriminate).
  assert (Hi : [0x11; 0x00; 0x22] !! 2%nat = Some 0x22) by reflexivity.
  assert (Hne : 0x23 <> 0x22) by discriminate.
  assert (Hc : calculateCRC [0x11; 0x00; 0x22]
                 (Z.of_nat (length [0x11; 0x00; 0x22])) = Some 0x33)
    by (vm_compute; reflexivity).
  assert (Hr : decode_loop [2; 0x11; 3; 0x23; 0x33; 0]
                 (length [2; 0x11; 3; 0x23; 0x33; 0]) decode_init
               = Some (DecState 6 0 3 [0x11; 0x00; 0x23; 0x33]))
    by (vm_compute; reflexivity).
  assert (Ho : dec_output (DecState 6 0 3 [0x11; 0x00; 0x23; 0x33])
               = <[2%nat:=0x23]> [0x11; 0x00; 0x22] ++ [0x33])
    by reflexivity.
  split; [exact Hd|]. split; [exact Hb|]. split; [exact Hl|].
  split; [exact Hi|]. split; [exact Hne|]. split; [exact Hc|].
  split; [exact Hr|]. split; [exact Ho|].
  exact (decode_rejects_byte_change (mkCOBSParser [7])
           [2; 0x11; 3; 0x23; 0x33; 0] _ [0x11; 0x00; 0x22] 0x33 2 0x22 0x23
           Hd Hb Hl Hi Hne Hc Hr Ho).
Defined.

(** ** X9: the checksum does not see the order of the bytes *)

Lemma foldl_lxor_Permutation (l k : list Z) :
  Permutation l k -> forall acc, foldl Z.lxor acc l = foldl Z.lxor acc k.
Proof.
  induction 1 as [|x l k _ IH|x y l|l k m _ IH1 _ IH2]; intros acc; simpl.
  - reflexivity.
  - apply IH.
  - f_equal. rewrite !Z.lxor_assoc. f_equal. apply Z.lxor_comm.
  - rewrite IH1. apply IH2.
Qed.

(** X9.  [calculateCRC] returns the same value for any two arrangements
    of the same bytes: a reordering of the data is not a change that the
    checksum can show. *)
Theorem crc_ignores_order (data1 data2 : list Z) :
  bytes data1 ->
  Z.of_nat (length data1) <= UINT32_MAX ->
  Permutation data1 data2 ->
  calculateCRC data1 (Z.of_nat (length data1))
  = calculateCRC data2 (Z.of_nat (length data2)).
Proof.
  intros Hb Hlen Hperm.
  assert (Hb2 : bytes data2).
  { unfold bytes in *. rewrite <- Hperm. exact Hb. }
  assert (Hl2 : length data2 = length data1)
    by (symmetry; apply Permutation_length; exact Hperm).
  rewrite (calculateCRC_all data1 Hlen).
  rewrite calculateCRC_all by (rewrite Hl2; exact Hlen).
  rewrite (crc_of_bytes data1 Hb), (crc_of_bytes data2 Hb2).
  f_equal. apply foldl_lxor_Permutation. exact Hperm.
Qed.

Lemma crc_ignores_order_witness :
  bytes [0x12; 0x34; 0x56] /\
  Z.of_nat (length [0x12; 0x34; 0x56]) <= UINT32_MAX /\
  Permutation [0x12; 0x34; 0x56] [0x34; 0x12; 0x56] /\
  calculateCRC [0x12; 0x34; 0x56] (Z.of_nat (length [0x12; 0x34; 0x56]))
  = calculateCRC [0x34; 0x12; 0x56] (Z.of_nat (length [0x34; 0x12; 0x56])).
Proof.
  assert (Hd : bytes [0x12; 0x34; 0x56])
    by (repeat constructor; discriminate).
  assert (Hl : Z.of_nat (length [0x12; 0x34; 0x56]) <= UINT32_MAX)
    by (vm_compute; discriminate).
  assert (Hp : Permutation [0x12; 0x34; 0x56] [0x34; 0x12; 0x56])
    by apply perm_swap.
  split; [exact Hd|]. split; [exact Hl|]. split; [exact Hp|].
  exact (crc_ignores_order _ _ Hd Hl Hp).
Defined.

(** ** X10: the blocks of an encoded frame *)

Lemma stuff_concat (msg : list Z) :
  forall cur,
    stuff msg cur = concat (stuff_blocks msg cur) ++ [ASCII_NULL].
Proof.
  induction msg as [|b msg IH]; intros cur; simpl.
  - list_eq.
  - destruct (decide (b = ASCII_NULL)).
    + simpl. rewrite IH. list_eq.
    + destruct (decide (length (cur ++ [b]) = 254%nat)).
      * simpl. rewrite IH. list_eq.
      * apply IH.
Qed.

Lemma stuff_blocks_ok (msg : list Z) :
  forall cur,
    Forall nonzero cur -> (length cur < 254)%nat ->
    Forall block_ok (stuff_blocks msg cur).
Proof.
  induction msg as [|b msg IH]; intros cur Hnz Hcur; simpl.
  - constructor; [|constructor].
    exists cur. split; [reflexivity|]. split; [lia|assumption].
  - destruct (decide (b = ASCII_NULL)) as [Hb|Hb].
    + constructor.
      * exists cur. split; [reflexivity|]. split; [lia|assumption].
      * apply IH; [constructor|simpl; lia].
    + assert (Hnz' : Forall nonzero (cur ++ [b])).
      { apply Forall_app; split; [assumption|].
        constructor; [exact Hb|constructor]. }
      destruct (decide (length (cur ++ [b]) = 254%nat)) as [Hfull|Hfull].
      * constructor.
        -- exists (cur ++ [b]). rewrite Hfull.
           split; [reflexivity|]. split; [lia|assumption].
        -- apply IH; [constructor|simpl; lia].
      * apply IH; [assumption|].
        rewrite length_app in *. simpl in *. lia.
Qed.

Lemma frame_blocks_concat (bl : list (list Z)) :
  forall fuel junk,
    Forall block_ok bl -> (length bl <= fuel)%nat ->
    frame_blocks fuel (concat bl ++ ASCII_NULL :: junk) = bl.
Proof.
  induction bl as [|blk bl IH]; intros fuel junk Hok Hfuel.
  - destruct fuel; reflexivity.
  - inversion Hok as [|? ? (lits & -> & Hlen & _) Hok']; subst.
    destruct fuel as [|fuel]; [simpl in Hfuel; lia|].
    simpl concat.
    replace (((1 + Z.of_nat (length lits)) :: lits ++ concat bl)
             ++ ASCII_NULL :: junk)
      with ((1 + Z.of_nat (length lits))
            :: lits ++ (concat bl ++ ASCII_NULL :: junk)) by list_eq.
    cbn [frame_blocks].
    rewrite decide_False by (unfold ASCII_NULL; lia).
    replace (Z.to_nat (1 + Z.of_nat (length lits) - 1)) with (length lits)
      by lia.
    rewrite take_app_length, drop_app_length.
    rewrite IH by (simpl in Hfuel; assumption || lia). reflexivity.
Qed.

Lemma blocks_count_le (bl : list (list Z)) :
  Forall block_ok bl -> (length bl <= length (concat bl))%nat.
Proof.
  induction 1 as [|blk bl (lits & -> & _) _ IH]; simpl; [lia|].
  rewrite length_app. lia.
Qed.

(** X10.  The frame of every payload (of a length that [inputSize] can
    hold) is a sequence of blocks followed by the end-of-frame byte,
    where the blocks are those that a reader delimits by the overhead
    bytes: each overhead byte is one more than the number of literal
    bytes after it, so between 1 and 255, each block has at most 254
    literal bytes, and no literal byte is the sentinel. *)
Theorem frame_block_structure (p : list Z) :
  Z.of_nat (length p) <= UINT32_MAX ->
  exists n frame,
    encodeMessage p (Z.of_nat (length p)) = Some (n, frame) /\
    frame = concat (blocks frame) ++ [ASCII_NULL] /\
    blocks frame <> [] /\
    Forall block_ok (blocks frame).
Proof.
  intros Hlen.
  eexists _, _. split; [apply encodeMessage_frame; exact Hlen|].
  pose proof (stuff_blocks_ok (message p) [] (Forall_nil_2 _)
                ltac:(simpl; lia)) as Hok.
  assert (Hbl : blocks (stuff (message p) []) = stuff_blocks (message p) []).
  { unfold blocks. rewrite stuff_concat at 2.
    apply frame_blocks_concat; [exact Hok|].
    rewrite stuff_concat, length_app. simpl.
    pose proof (blocks_count_le _ Hok). lia. }
  rewrite Hbl. split; [apply stuff_concat|]. split; [|exact Hok].
  destruct (message p) as [|b m]; simpl; [discriminate|].
  destruct (decide (b = ASCII_NULL)); [discriminate|].
  destruct (decide (length [b] = 254%nat)); [discriminate|].
  intros Hnil. pose proof (stuff_concat m [b]) as Hc.
  rewrite Hnil in Hc. simpl in Hc.
  pose proof (f_equal length Hc) as Hl.
  rewrite stuff_length in Hl. simpl in Hl. lia.
Qed.

Lemma frame_block_structure_witness :
  Z.of_nat (length [0x11; 0x00; 0x22]) <= UINT32_MAX /\
  exists n frame,
    encodeMessage [0x11; 0x00; 0x22] 3 = Some (n, frame) /\
    frame = concat (blocks frame) ++ [ASCII_NULL] /\
    blocks frame <> [] /\
    Forall block_ok (blocks frame).
Proof.
  split; [vm_compute; discriminate|].
  apply (frame_block_structure [0x11; 0x00; 0x22]).
  vm_compute. discriminate.
Defined.

(** ** X11: the store holds the last validated payload *)

(** What a call of [decodeMessage] does does not depend on the store. *)
Lemma decodeMessage_outcome (this : COBSParser) (input : list Z) :
  bytes input ->
  Z.of_nat (length input) <= UINT32_MAX ->
  rejected input \/
  exists payload s,
    decode_loop input (length input) decode_init = Some s /\
    dec_output s = payload ++ [xor_fold payload] /\
    forall that, decodeMessage that input = Some (true, mkCOBSParser payload).
Proof.
  intros Hb Hl.
  destruct (decodeMessage_cases this input Hb Hl)
    as [[_ Hrej]|(payload & Hrec & _ & _)].
  - left. intros that.
    destruct (decodeMessage_cases that input Hb Hl)
      as [[Hf _]|(payload' & Hrec' & _ & _)]; [exact Hf|].
    exfalso. destruct Hrej as [Hnil|(payload & c & Hrec & Hne)].
    + rewrite Hnil in Hrec'. destruct payload'; discriminate.
    + rewrite Hrec in Hrec'. apply app_inj_tail in Hrec' as [-> ->].
      apply Hne. reflexivity.
  - right.
    destruct (decode_loop_recovered input (length input) (Nat.le_refl _))
      as (s & Hrun & Hout).
    exists payload, s. split; [exact Hrun|].
    split; [rewrite Hout; exact Hrec|].
    intros that.
    destruct (decodeMessage_cases that input Hb Hl)
      as [[_ Hrej]|(payload' & Hrec' & _ & Ht)].
    + exfalso. destruct Hrej as [Hnil|(payload' & c & Hrec' & Hne)].
      * rewrite Hnil in Hrec. destruct payload; discriminate.
      * rewrite Hrec in Hrec'. apply app_inj_tail in Hrec' as [-> <-].
        apply Hne. reflexivity.
    + rewrite Hrec in Hrec'. apply app_inj_tail in Hrec' as [-> _].
      exact Ht.
Qed.

(** X11.  After any sequence of calls of [decodeMessage] on vectors of
    bytes, made on an object whose store is [this] (for a new object,
    the empty store of the constructor), the store is the payload of the
    last of those inputs on which [decodeMessage] returned [true], an
    input whose recovered sequence is that payload followed by the XOR
    of its bytes; if it returned [true] on none of them, the store is
    still [this]. *)
Theorem store_is_last_validated (this : COBSParser)
    (inputs : list (list Z)) :
  Forall bytes inputs ->
  Forall (fun input => Z.of_nat (length input) <= UINT32_MAX) inputs ->
  exists this',
    decode_all this inputs = Some this' /\
    (this' = this /\ Forall rejected inputs \/
     exists before input after s,
       inputs = before ++ input :: after /\
       decode_loop input (length input) decode_init = Some s /\
       dec_output s = getMessage this' ++ [xor_fold (getMessage this')] /\
       (forall that, decodeMessage that input = Some (true, this')) /\
       Forall rejected after).
Proof.
  intros Hbytes Hlens. revert this.
  induction inputs as [|input rest IH]; intros this.
  - exists this. split; [reflexivity|]. left. split; constructor.
  - inversion Hbytes as [|? ? Hb Hbr]; subst.
    inversion Hlens as [|? ? Hl Hlr]; subst.
    specialize (IH Hbr Hlr). simpl decode_all.
    destruct (decodeMessage_outcome this input Hb Hl)
      as [Hrej|(payload & s & Hrun & Hout & Hacc)].
    + rewrite (Hrej this). simpl.
      destruct (IH this)
        as (this' & Hall & [[-> Hrest]|(bf & inp & af & s & -> & H)]).
      * exists this. split; [exact Hall|]. left.
        split; [reflexivity|constructor; assumption].
      * exists this'. split; [exact Hall|]. right.
        exists (input :: bf), inp, af, s. split; [reflexivity|exact H].
    + rewrite (Hacc this). simpl.
      destruct (IH (mkCOBSParser payload))
        as (this' & Hall & [[-> Hrest]|(bf & inp & af & s' & -> & H)]).
      * exists (mkCOBSParser payload). split; [exact Hall|]. right.
        exists [], input, rest, s. split; [reflexivity|].
        split; [exact Hrun|]. split; [exact Hout|].
        split; [exact Hacc|exact Hrest].
      * exists this'. split; [exact Hall|]. right.
        exists (input :: bf), inp, af, s'. split; [reflexivity|exact H].
Qed.

Lemma store_is_last_validated_witness :
  Forall bytes [[2; 0x11; 3; 0x22; 0x33; 0]; [0]; [2; 0x11; 3; 0x23; 0x33; 0]]
  /\
  Forall (fun input => Z.of_nat (length input) <= UINT32_MAX)
    [[2; 0x11; 3; 0x22; 0x33; 0]; [0]; [2; 0x11; 3; 0x23; 0x33; 0]] /\
  exists this',
    decode_all COBSParser_new
      [[2; 0x11; 3; 0x22; 0x33; 0]; [0]; [2; 0x11; 3; 0x23; 0x33; 0]]
    = Some this' /\
    (this' = COBSParser_new /\
     Forall rejected
       [[2; 0x11; 3; 0x22; 0x33; 0]; [0]; [2; 0x11; 3; 0x23; 0x33; 0]] \/
     exists before input after s,
       [[2; 0x11; 3; 0x22; 0x33; 0]; [0]; [2; 0x11; 3; 0x23; 0x33; 0]]
       = before ++ input :: after /\
       decode_loop input (length input) decode_init = Some s /\
       dec_output s = getMessage this' ++ [xor_fold (getMessage this')] /\
       (forall that, decodeMessage that input = Some (true, this')) /\
       Forall rejected after).
Proof.
  assert (Hb : Forall bytes
                 [[2; 0x11; 3; 0x22; 0x33; 0]; [0];
                  [2; 0x11; 3; 0x23; 0x33; 0]])
    by (repeat constructor; discriminate).
  assert (Hl : Forall (fun input => Z.of_nat (length input) <= UINT32_MAX)
                 [[2; 0x11; 3; 0x22; 0x33; 0]; [0];
                  [2; 0x11; 3; 0x23; 0x33; 0]])
    by (repeat constructor; vm_compute; discriminate).
  split; [exact Hb|]. split; [exact Hl|].
  exact (store_is_last_validated COBSParser_new _ Hb Hl).
Defined.

(** ** X12: the longest payload that [inputSize] can describe *)

(** X12.  For a payload of exactly [2^32 - 1] bytes, [inputSize + 1U]
    wraps to 0: the encoding loop does not run, no byte of the payload
    and no check byte is encoded, and [encodeMessage] returns 2 with the
    frame [0x01; 0x00], which [decodeMessage] rejects. *)
Theorem encode_wraps_at_uint32_max (this : COBSParser) (p : list Z) :
  Z.of_nat (length p) = UINT32_MAX ->
  encodeMessage p (Z.of_nat (length p)) = Some (2, [1; ASCII_NULL]) /\
  decodeMessage this [1; ASCII_NULL] = Some (false, this).
Proof.
  intros Hlen. split; [|rewrite decodeMessage_recovered; reflexivity].
  rewrite encodeMessage_frame by lia.
  assert (Hm : message p = []).
  { unfold message. rewrite Hlen.
    change (u32 (UINT32_MAX + 1)) with 0. reflexivity. }
  rewrite Hm. reflexivity.
Qed.

Lemma encode_wraps_at_uint32_max_witness :
  Z.of_nat (length (replicate (Z.to_nat UINT32_MAX) 0x55)) = UINT32_MAX /\
  encodeMessage (replicate (Z.to_nat UINT32_MAX) 0x55)
    (Z.of_nat (length (replicate (Z.to_nat UINT32_MAX) 0x55)))
  = Some (2, [1; ASCII_NULL]) /\
  decodeMessage COBSParser_new [1; ASCII_NULL]
  = Some (false, COBSParser_new).
Proof.
  assert (H : Z.of_nat (length (replicate (Z.to_nat UINT32_MAX) 0x55))
              = UINT32_MAX).
  { rewrite length_replicate. apply Z2Nat.id. vm_compute. discriminate. }
  split; [exact H|].
  exact (encode_wraps_at_uint32_max COBSParser_new _ H).
Defined.

(** ** X13: only the first [inputSize] bytes are encoded *)

Lemma encode_loop_ext (input1 input2 : list Z) (inputSize crc : Z)
    (n : nat) :
  (forall j, 0 <= j < inputSize ->
             input1 !! Z.to_nat j = input2 !! Z.to_nat j) ->
  forall i s,
    0 <= i ->
    encode_loop input1 inputSize crc n i s
    = encode_loop input2 inputSize crc n i s.
Proof.
  intros Hsame. induction n as [|n IH]; intros i s Hi; simpl.
  - reflexivity.
  - destruct (decide (i < inputSize)) as [Hlt|Hge].
    + rewrite (Hsame i) by lia.
      destruct (input2 !! Z.to_nat i) as [b|]; simpl; [|reflexivity].
      destruct (encode_byte b s) as [s'|]; simpl; [|reflexivity].
      apply IH. apply u32_range.
    + simpl. destruct (encode_byte crc s) as [s'|]; simpl; [|reflexivity].
      apply IH. apply u32_range.
Qed.

(** X13.  [encodeMessage] reads [input] at the indices below [inputSize]
    and nowhere else: called on a buffer that holds at least [inputSize]
    bytes, it returns what it returns on the first [inputSize] bytes
    alone. *)
Theorem encode_reads_prefix (input : list Z) (inputSize : Z) :
  0 <= inputSize <= UINT32_MAX ->
  inputSize <= Z.of_nat (length input) ->
  encodeMessage input inputSize
  = encodeMessage (take (Z.to_nat inputSize) input) inputSize.
Proof.
  intros Hsize Hlen. unfold encodeMessage.
  rewrite (calculateCRC_take input inputSize Hsize Hlen).
  rewrite calculateCRC_take
    by (rewrite ?length_take; lia).
  rewrite take_take, Nat.min_id. simpl.
  rewrite (encode_loop_ext input (take (Z.to_nat inputSize) input));
    [reflexivity| |lia].
  intros j Hj. rewrite lookup_take_lt by lia. reflexivity.
Qed.

Lemma encode_reads_prefix_witness :
  0 <= 2 <= UINT32_MAX /\
  2 <= Z.of_nat (length [0x11; 0x00; 0x22; 0x33]) /\
  encodeMessage [0x11; 0x00; 0x22; 0x33] 2
  = encodeMessage (take (Z.to_nat 2) [0x11; 0x00; 0x22; 0x33]) 2.
Proof.
  assert (Hs : 0 <= 2 <= UINT32_MAX) by (split; vm_compute; discriminate).
  assert (Hl : 2 <= Z.of_nat (length [0x11; 0x00; 0x22; 0x33]))
    by (vm_compute; discriminate).
  split; [exact Hs|]. split; [exact Hl|].
  exact (encode_reads_prefix [0x11; 0x00; 0x22; 0x33] 2 Hs Hl).
Defined.
